(** * The two-promise combinator [all] of the promises workshop

    The program under study is the workshop exercise

<<
    function all(p1,p2){
        return new Promise(function (fulfill, reject) {
            let counter = 0;
            let result = [];
            p1.then((res)=>{
                counter++;
                result.push(res);
                if(counter>=2) fulfill(result);
            });
            p2.then((res)=>{
                counter++;
                result.push(res);
                if(counter>=2) fulfill(result);
            });
        });
    }

    all(getPromise1(), getPromise2()).then(console.log);
>>

    It runs on the host's promise machinery, so the development first
    gives a small executable model of that machinery (promise cells,
    reactions, the job queue), then the program itself, and then the
    properties of the program over every settlement schedule. *)

From Stdlib Require Import ZArith String List Lia.
From stdpp Require Import base tactics option list.
Import ListNotations.
Local Open Scope Z_scope.

(** ** Values *)

(** Values a promise can be settled with.  A promise never fulfils with
    a thenable, so promise handles are kept out of this type; an array is
    a reference into the heap, because [result] is shared between the two
    callbacks and whoever receives it from the output promise. *)
Inductive value : Type :=
  | VUndefined
  | VNumber (n : Z)
  | VString (s : string)
  | VArray (a : nat)
  | VTypeError (msg : string).

(** What a caller can pass as [p1] or [p2]: a promise handle, or a value
    that has no callable [then]. *)
Inductive arg : Type :=
  | APromise (p : nat)
  | AValue (v : value).

(** ** The promise machinery *)

Inductive pstate : Type :=
  | Pending
  | Fulfilled (v : value)
  | Rejected (e : value).

(** Functions of the program that can be installed as listeners, as
    closures: the arrow function of [all] closed over the variables of one
    call of the executor, and [console.log]. *)
Inductive handler : Type :=
  | HAllCb (fr : nat)
  | HConsoleLog.

#[global] Instance handler_eq_dec : EqDecision handler.
Proof. solve_decision. Defined.

(** One call [p.then(onFulfilled, onRejected)] leaves one reaction;
    [derived] is the promise the call returned. *)
Record reaction : Type := Reaction {
  on_fulfilled : option handler;
  on_rejected : option handler;
  derived : nat
}.

Inductive jkind : Type := KFulfill | KReject.

(** A reaction job of the job queue. *)
Record job : Type := Job {
  j_handler : option handler;
  j_kind : jkind;
  j_arg : value;
  j_derived : nat
}.

(** Who holds the resolving functions of a promise: the surrounding
    program ([getPromise1()], [getPromise2()]), or code of the model
    ([new Promise] in [all], the promise returned by [then]). *)
Inductive owner : Type := External | Internal.

Record cell : Type := Cell {
  c_owner : owner;
  c_state : pstate;
  c_reactions : list reaction
}.

(** The variables of one run of the executor of [all]: [counter], the
    array [result] (a heap reference) and the promise that the captured
    [fulfill] resolves.  The executor also receives [reject], for the
    same promise; no code of [all] mentions it. *)
Record frame : Type := Frame {
  counter : Z;
  result : nat;
  fulfill : nat
}.

(** What [console.log] wrote: a plain value, or the elements of an array
    as they were when it was printed. *)
Inductive printed : Type :=
  | PrintValue (v : value)
  | PrintArray (elems : list value).

Record state : Type := State {
  promises : list cell;
  frames : list frame;
  heap : list (list value);
  jobs : list job;
  console : list printed;
  (** every call of [then] so far: receiver, onFulfilled, onRejected *)
  then_calls : list (nat * option handler * option handler)
}.

Definition set_promises (ps : list cell) (s : state) : state :=
  State ps (frames s) (heap s) (jobs s) (console s) (then_calls s).
Definition set_frames (fs : list frame) (s : state) : state :=
  State (promises s) fs (heap s) (jobs s) (console s) (then_calls s).
Definition set_heap (h : list (list value)) (s : state) : state :=
  State (promises s) (frames s) h (jobs s) (console s) (then_calls s).
Definition set_jobs (js : list job) (s : state) : state :=
  State (promises s) (frames s) (heap s) js (console s) (then_calls s).
Definition set_console (c : list printed) (s : state) : state :=
  State (promises s) (frames s) (heap s) (jobs s) c (then_calls s).
Definition set_then_calls (t : list (nat * option handler * option handler))
    (s : state) : state :=
  State (promises s) (frames s) (heap s) (jobs s) (console s) t.

Definition state_of (s : state) (p : nat) : option pstate :=
  c_state <$> promises s !! p.

Definition settled (k : jkind) (v : value) : pstate :=
  match k with KFulfill => Fulfilled v | KReject => Rejected v end.

Definition pick (k : jkind) (r : reaction) : option handler :=
  match k with KFulfill => on_fulfilled r | KReject => on_rejected r end.

Definition reaction_job (k : jkind) (v : value) (r : reaction) : job :=
  Job (pick k r) k v (derived r).

(** Settling a promise: only a pending promise changes; its reactions
    become jobs, in registration order, behind the jobs already queued. *)
Definition settle (p : nat) (k : jkind) (v : value) (s : state) : state :=
  match promises s !! p with
  | Some (Cell ow Pending rs) =>
      set_jobs (jobs s ++ map (reaction_job k v) rs)
        (set_promises (<[p := Cell ow (settled k v) []]> (promises s)) s)
  | _ => s
  end.

(** [p.then(onF, onR)] on a promise: a new derived promise is returned;
    on a pending receiver the reaction is stored, on a settled one the job
    is queued at once (never run inside the call). *)
Definition then_ (p : nat) (onF onR : option handler) (s : state)
  : state * nat :=
  let d := length (promises s) in
  let s1 :=
    set_then_calls (then_calls s ++ [(p, onF, onR)])
      (set_promises (promises s ++ [Cell Internal Pending []]) s) in
  match promises s !! p with
  | Some (Cell ow Pending rs) =>
      (set_promises
         (<[p := Cell ow Pending (rs ++ [Reaction onF onR d])]> (promises s1))
         s1, d)
  | Some (Cell _ (Fulfilled v) _) =>
      (set_jobs (jobs s1 ++ [Job onF KFulfill v d]) s1, d)
  | Some (Cell _ (Rejected e) _) =>
      (set_jobs (jobs s1 ++ [Job onR KReject e d]) s1, d)
  | None => (s1, d)
  end.

(** ** Computations that may throw *)

Inductive completion (A : Type) : Type :=
  | Normal (x : A)
  | Throw (e : value).
Arguments Normal {A} x.
Arguments Throw {A} e.

Definition js (A : Type) : Type := state -> state * completion A.

Definition ret {A} (x : A) : js A := fun s => (s, Normal x).
Definition throw {A} (e : value) : js A := fun s => (s, Throw e).
Definition bind {A B} (m : js A) (k : A -> js B) : js B :=
  fun s => match m s with
           | (s', Normal x) => k x s'
           | (s', Throw e) => (s', Throw e)
           end.

Declare Scope js_scope.
Delimit Scope js_scope with js.
Notation "x <- m ;; k" := (bind m (fun x => k))
  (at level 100, m at next level, right associativity) : js_scope.
Notation "m ;;; k" := (bind m (fun _ => k))
  (at level 100, right associativity) : js_scope.

(** The TypeError of [v.then(...)] for a value [v] that is not a promise:
    [undefined] has no properties at all, any other value has no
    callable [then]. *)
Definition then_error (v : value) : value :=
  match v with
  | VUndefined => VTypeError "Cannot read properties of undefined"%string
  | _ => VTypeError "then is not a function"%string
  end.

(** [x.then(onF, onR)] as the program writes it: on anything but a
    promise the call throws. *)
Definition then_arg (x : arg) (onF onR : option handler) : js nat :=
  fun s =>
    match x with
    | APromise p => let (s', d) := then_ p onF onR s in (s', Normal d)
    | AValue v => throw (then_error v) s
    end.

(** [new Promise(executor)]: the executor runs inside the call; what it
    throws is turned into a rejection of the new promise. *)
Definition new_promise (executor : nat -> js unit) : js nat :=
  fun s =>
    let o := length (promises s) in
    let s0 := set_promises (promises s ++ [Cell Internal Pending []]) s in
    match executor o s0 with
    | (s1, Normal _) => (s1, Normal o)
    | (s1, Throw e) => (settle o KReject e s1, Normal o)
    end.

(** ** The program *)

(** [let counter = 0; let result = [];] *)
Definition enter_executor (out : nat) : js nat :=
  fun s =>
    let f := length (frames s) in
    let a := length (heap s) in
    (set_frames (frames s ++ [Frame 0 a out]) (set_heap (heap s ++ [[]]) s),
     Normal f).

(** [(res)=>{ counter++; result.push(res); if(counter>=2) fulfill(result); }] *)
Definition all_callback (f : nat) (res : value) : js value :=
  fun s =>
    match frames s !! f with
    | Some (Frame c a out) =>
        let c' := c + 1 in
        let s1 :=
          set_heap (alter (fun l => l ++ [res]) a (heap s))
            (set_frames (<[f := Frame c' a out]> (frames s)) s) in
        if 2 <=? c' then (settle out KFulfill (VArray a) s1, Normal VUndefined)
        else (s1, Normal VUndefined)
    | None => (s, Normal VUndefined)
    end.

Definition all_executor (p1 p2 : arg) (out : nat) : js unit :=
  (f <- enter_executor out ;;
   then_arg p1 (Some (HAllCb f)) None ;;;
   then_arg p2 (Some (HAllCb f)) None ;;;
   ret tt)%js.

Definition all (p1 p2 : arg) : js nat :=
  new_promise (all_executor p1 p2).

(** [all(p1, p2).then(console.log)], the last line of the file. *)
Definition main (p1 p2 : arg) : js nat :=
  (o <- all p1 p2 ;; then_arg (APromise o) (Some HConsoleLog) None)%js.

(** ** Running jobs and schedules *)

Definition print (s : state) (v : value) : printed :=
  match v with
  | VArray a => PrintArray (default [] (heap s !! a))
  | _ => PrintValue v
  end.

Definition call_handler (h : handler) (x : value) : js value :=
  match h with
  | HAllCb f => all_callback f x
  | HConsoleLog =>
      fun s => (set_console (console s ++ [print s x]) s, Normal VUndefined)
  end.

(** One reaction job: without a handler the settlement passes through to
    the derived promise; with one, the derived promise is settled by how
    the handler completes. *)
Definition run_job (j : job) (s : state) : state :=
  match j_handler j with
  | None => settle (j_derived j) (j_kind j) (j_arg j) s
  | Some h =>
      match call_handler h (j_arg j) s with
      | (s', Normal v) => settle (j_derived j) KFulfill v s'
      | (s', Throw e) => settle (j_derived j) KReject e s'
      end
  end.

(** What can happen after the call: the surrounding program settles one
    of its own pending promises, or the host runs the next job. *)
Inductive event : Type :=
  | EnvFulfill (p : nat) (v : value)
  | EnvReject (p : nat) (e : value)
  | Tick.

Definition env_settle (p : nat) (k : jkind) (v : value) (s : state) : state :=
  match promises s !! p with
  | Some (Cell External Pending _) => settle p k v s
  | _ => s
  end.

Definition step (e : event) (s : state) : state :=
  match e with
  | EnvFulfill p v => env_settle p KFulfill v s
  | EnvReject p e => env_settle p KReject e s
  | Tick =>
      match jobs s with
      | [] => s
      | j :: rest => run_job j (set_jobs rest s)
      end
  end.

Definition run (es : list event) (s : state) : state :=
  fold_left (fun s e => step e s) es s.

(** Running jobs until the queue is empty (or the fuel is). *)
Fixpoint drain (fuel : nat) (s : state) : state :=
  match fuel with
  | O => s
  | S n => match jobs s with
           | [] => s
           | _ :: _ => drain n (step Tick s)
           end
  end.

(** A state with nothing but promises of the surrounding program. *)
Definition handles (sts : list pstate) : state :=
  State (map (fun st => Cell External st []) sts) [] [] [] [] [].

Definition state_after {A} (m : js A) (s : state) : state := fst (m s).

(** ** Measures on states *)

(** Weighted count of the queued jobs and of the stored reactions. *)
Definition potential (wr : reaction -> nat) (wj : job -> nat) (s : state) : nat :=
  (sum_list_with wj (jobs s) +
   sum_list_with (fun c => sum_list_with wr (c_reactions c)) (promises s))%nat.

(** Bound on the jobs that can still run: every queued job and every
    stored reaction counts for one. *)
Definition work (s : state) : nat :=
  potential (fun _ => 1%nat) (fun _ => 1%nat) s.

Definition logs (h : option handler) : nat :=
  match h with Some HConsoleLog => 1%nat | _ => 0%nat end.

(** The number of [console.log] listeners that may still run. *)
Definition loggers (s : state) : nat :=
  potential (fun r => (logs (on_fulfilled r) + logs (on_rejected r))%nat)
            (fun j => logs (j_handler j)) s.

(** How many calls of [then] on promise [p] passed a fulfilment
    listener, and how many a rejection listener. *)
Definition fulfilment_listeners (p : nat)
    (calls : list (nat * option handler * option handler)) : nat :=
  length (filter (fun c => c.1.1 = p /\ is_Some c.1.2) calls).

Definition rejection_listeners (p : nat)
    (calls : list (nat * option handler * option handler)) : nat :=
  length (filter (fun c => c.1.1 = p /\ is_Some c.2) calls).

(** ** Well-formed states *)

(** A state in which every reference points to something that exists:
    derived promises and captured [fulfill]s to promises, closures to
    frames, [result]s to arrays. *)
Definition handler_wf (nf : nat) (h : option handler) : bool :=
  match h with
  | Some (HAllCb f) => (f <? nf)%nat
  | _ => true
  end.

Definition reaction_wf (np nf : nat) (r : reaction) : bool :=
  handler_wf nf (on_fulfilled r) && handler_wf nf (on_rejected r) &&
  (derived r <? np)%nat.

Definition job_wf (np nf : nat) (j : job) : bool :=
  handler_wf nf (j_handler j) && (j_derived j <? np)%nat.

Definition frame_wf (np na : nat) (fr : frame) : bool :=
  (result fr <? na)%nat && (fulfill fr <? np)%nat.

Definition wf (s : state) : bool :=
  let np := length (promises s) in
  let nf := length (frames s) in
  let na := length (heap s) in
  forallb (fun c => forallb (reaction_wf np nf) (c_reactions c)) (promises s) &&
  forallb (job_wf np nf) (jobs s) &&
  forallb (frame_wf np na) (frames s).

(** The same against given numbers of promises, frames and arrays. *)
Definition wf_at (np nf na : nat) (s : state) : Prop :=
  (forall q c, promises s !! q = Some c ->
     Forall (fun r => reaction_wf np nf r = true) (c_reactions c)) /\
  Forall (fun j => job_wf np nf j = true) (jobs s) /\
  Forall (fun fr => frame_wf np na fr = true) (frames s).

(** ** The call: states and invariant *)

(** The state in which the executor of [all] makes its first call of
    [then]: the output promise, the frame and the empty array exist. *)
Definition entered (s : state) : state :=
  set_frames (frames s ++ [Frame 0 (length (heap s)) (length (promises s))])
    (set_heap (heap s ++ [[]])
       (set_promises (promises s ++ [Cell Internal Pending []]) s)).

(** The state right after [all(p1, p2)] returned, on two handles. *)
Definition called (p1 p2 : nat) (s : state) : state :=
  state_after (all (APromise p1) (APromise p2)) s.

(** The state after the last line of the file. *)
Definition started (p1 p2 : nat) (s : state) : state :=
  state_after (main (APromise p1) (APromise p2)) s.

(** Where the listener that [all] put on one input stands: stored on the
    pending input, queued as a job, run, or lost because the input
    rejected (its pass-through job queued, or run as well). *)
Inductive phase : Type :=
  | PWait
  | PQueued (v : value)
  | PRan (v : value)
  | PDead (e : value)
  | PGone (e : value).

Definition phase_state (ph : phase) : pstate :=
  match ph with
  | PWait => Pending
  | PQueued v | PRan v => Fulfilled v
  | PDead e | PGone e => Rejected e
  end.

Definition ran (ph : phase) : list value :=
  match ph with PRan v => [v] | _ => [] end.

Definition phase_reactions (cb : handler) (d p q : nat) (ph : phase)
  : list reaction :=
  match ph with
  | PWait => if decide (q = p) then [Reaction (Some cb) None d] else []
  | _ => []
  end.

Definition phase_jobs (cb : handler) (d : nat) (ph : phase) : list job :=
  match ph with
  | PQueued v => [Job (Some cb) KFulfill v d]
  | PDead e => [Job None KReject e d]
  | _ => []
  end.

Definition initial_phase (st : pstate) : phase :=
  match st with
  | Pending => PWait
  | Fulfilled v => PQueued v
  | Rejected e => PDead e
  end.

(** The phase after the input of a listener has been settled. *)
Definition advance (k : jkind) (v : value) (ph : phase) : phase :=
  match ph with
  | PWait => match k with KFulfill => PQueued v | KReject => PDead v end
  | _ => ph
  end.

(** The phase of a listener once its queued job has been taken. *)
Definition retire (ph : phase) : phase :=
  match ph with
  | PQueued v => PRan v
  | PDead e => PGone e
  | _ => ph
  end.

(** One listener of the call whose frame is [nf]: the state of its input
    [p], and the only records that carry its derived promise [d]. *)
Definition slot (nf : nat) (s : state) (p d : nat) (ph : phase) : Prop :=
  state_of s p = Some (phase_state ph) /\
  (forall q c, promises s !! q = Some c ->
     filter (fun r => derived r = d) (c_reactions c) =
     phase_reactions (HAllCb nf) d p q ph) /\
  filter (fun j => j_derived j = d) (jobs s) = phase_jobs (HAllCb nf) d ph.

(** No record resolves the output promise [np], and the arrow function
    of the call only sits in the two records made by the call. *)
Definition rec_ok (np nf : nat) (r : reaction) : Prop :=
  derived r <> np /\ on_rejected r <> Some (HAllCb nf) /\
  (on_fulfilled r = Some (HAllCb nf) -> derived r = S np \/ derived r = S (S np)).

Definition job_ok (np nf : nat) (j : job) : Prop :=
  j_derived j <> np /\
  (j_handler j = Some (HAllCb nf) -> j_derived j = S np \/ j_derived j = S (S np)).

Definition out_state (na : nat) (arr : list value) : pstate :=
  if (length arr <? 2)%nat then Pending else Fulfilled (VArray na).

(** Everything about the call except the state of the output promise.
    [np], [nf], [na] are the numbers of promises, frames and arrays when
    [all] was called: the call created the output promise [np], the
    derived promises [S np] and [S (S np)], frame [nf] and array [na]. *)
Record core (p1 p2 np nf na : nat) (ph1 ph2 : phase) (arr : list value)
    (s : state) : Prop := Core {
  core_frame : frames s !! nf = Some (Frame (Z.of_nat (length arr)) na np);
  core_heap : heap s !! na = Some arr;
  core_frames : forall f' fr, f' <> nf -> frames s !! f' = Some fr ->
                result fr <> na /\ fulfill fr <> np;
  core_recs : forall q c, promises s !! q = Some c ->
              Forall (rec_ok np nf) (c_reactions c);
  core_jobs : Forall (job_ok np nf) (jobs s);
  core_slot1 : slot nf s p1 (S np) ph1;
  core_slot2 : slot nf s p2 (S (S np)) ph2;
  core_arr : arr = ran ph1 ++ ran ph2 \/ arr = ran ph2 ++ ran ph1
}.
Arguments core_frame {_ _ _ _ _ _ _ _ _} _.
Arguments core_heap {_ _ _ _ _ _ _ _ _} _.
Arguments core_frames {_ _ _ _ _ _ _ _ _} _.
Arguments core_recs {_ _ _ _ _ _ _ _ _} _.
Arguments core_jobs {_ _ _ _ _ _ _ _ _} _.
Arguments core_slot1 {_ _ _ _ _ _ _ _ _} _.
Arguments core_slot2 {_ _ _ _ _ _ _ _ _} _.
Arguments core_arr {_ _ _ _ _ _ _ _ _} _.

(** The invariant of the call: the output promise is pending until the
    second value has been pushed, and fulfilled with [result] from then
    on. *)
Definition inv (p1 p2 np nf na : nat) (ph1 ph2 : phase) (arr : list value)
    (s : state) : Prop :=
  core p1 p2 np nf na ph1 ph2 arr s /\
  exists rs, promises s !! np = Some (Cell Internal (out_state na arr) rs).


(** The queued jobs whose handler is the arrow function of the call
    with frame [nf], in queue order. *)
Definition cb_jobs (nf : nat) (l : list job) : list job :=
  filter (fun j => j_handler j = Some (HAllCb nf)) l.

Definition queued_cb (nf d : nat) (ph : phase) : list job :=
  match ph with
  | PQueued v => [Job (Some (HAllCb nf)) KFulfill v d]
  | _ => []
  end.

(** The listener with derived promise [dA] is ahead of the one with
    [dB]: it has run, or it is queued and the other one is behind it in
    the queue or not queued at all; [result] holds its value first. *)
Definition lead_of (nf dA dB : nat) (phA phB : phase) (arr : list value)
    (l : list job) : Prop :=
  arr = ran phA ++ ran phB /\
  cb_jobs nf l = queued_cb nf dA phA ++ queued_cb nf dB phB /\
  match phA with
  | PRan _ => True
  | PQueued _ => ran phB = []
  | _ => False
  end.

(** The listener of the first input is ahead ([first = true]), or that
    of the second. *)
Definition lead (np nf : nat) (first : bool) (ph1 ph2 : phase)
    (arr : list value) (s : state) : Prop :=
  if first then lead_of nf (S np) (S (S np)) ph1 ph2 arr (jobs s)
  else lead_of nf (S (S np)) (S np) ph2 ph1 arr (jobs s).

(** An argument that is a handle names a promise that exists. *)
Definition arg_ok (s : state) (x : arg) : Prop :=
  match x with
  | APromise p => exists st, state_of s p = Some st
  | AValue _ => True
  end.

(** ** The listener of the last line *)

(** Where the [console.log] that the last line of the file puts on the
    output promise stands: stored on the pending output promise, queued
    as a job, or run. *)
Inductive lphase : Type := LWait | LQueued | LDone.

#[global] Instance lphase_eq_dec : EqDecision lphase.
Proof. solve_decision. Defined.

(** The records of that listener, for the call of [all] that made the
    output promise [np] and the array [na]: [then] on the output promise
    returned promise [np + 3]. *)
Definition log_reaction (np : nat) : reaction :=
  Reaction (Some HConsoleLog) None (S (S (S np))).

Definition log_job (np na : nat) : job :=
  Job (Some HConsoleLog) KFulfill (VArray na) (S (S (S np))).

(** [console.log] is installed nowhere else, and the console holds what
    it held at the start, [c0], and the line of this listener once it has
    run. *)
Definition log_core (np na : nat) (c0 : list printed) (lp : lphase)
    (arr : list value) (s : state) : Prop :=
  (forall q c, promises s !! q = Some c ->
     Forall (fun r => on_rejected r <> Some HConsoleLog) (c_reactions c)) /\
  (forall q c, promises s !! q = Some c ->
     filter (fun r => on_fulfilled r = Some HConsoleLog) (c_reactions c) =
     if decide (q = np /\ lp = LWait) then [log_reaction np] else []) /\
  filter (fun j => j_handler j = Some HConsoleLog) (jobs s) =
    match lp with LQueued => [log_job np na] | _ => [] end /\
  console s = c0 ++ match lp with LDone => [PrintArray arr] | _ => [] end /\
  (lp = LWait <-> state_of s np = Some Pending).

(** With that, the line that was printed is [result] as it still is. *)
Definition log_inv (np na : nat) (c0 : list printed) (lp : lphase)
    (arr : list value) (s : state) : Prop :=
  log_core np na c0 lp arr s /\
  (lp = LDone -> heap s !! na = Some arr).

(** ** One call after another *)


(** What a call that only adds leaves alone: [s'] has every settled or
    pending promise of [s] in the same state, the same console, the queue
    of [s] with jobs added at its end, and the arrays and frames of [s]. *)
Definition kept (s s' : state) : Prop :=
  (forall q st, state_of s q = Some st -> state_of s' q = Some st) /\
  console s' = console s /\
  (exists extra, jobs s' = jobs s ++ extra) /\
  (forall a l, heap s !! a = Some l -> heap s' !! a = Some l) /\
  (forall f fr, frames s !! f = Some fr -> frames s' !! f = Some fr).

(** ** Concrete inputs *)

(** The state in which [new Promise] has made its promise and is about
    to run the executor. *)
Definition allocated (s : state) : state :=
  set_promises (promises s ++ [Cell Internal Pending []]) s.

Definition two_pending : state := handles [Pending; Pending].

Definition one_and_two : state :=
  handles [Fulfilled (VNumber 1); Fulfilled (VNumber 2)].

Definition pending_and_two : state :=
  handles [Pending; Fulfilled (VNumber 2)].

Definition two_rejected : state :=
  handles [Rejected (VString "first"%string); Rejected (VString "second"%string)].


(** ** Facts about the machinery *)

Lemma settle_frames q k v s : frames (settle q k v s) = frames s.
Proof. unfold settle. by repeat case_match. Qed.

Lemma settle_heap q k v s : heap (settle q k v s) = heap s.
Proof. unfold settle. by repeat case_match. Qed.

Lemma settle_console q k v s : console (settle q k v s) = console s.
Proof. unfold settle. by repeat case_match. Qed.

Lemma settle_length q k v s :
  length (promises (settle q k v s)) = length (promises s).
Proof.
  unfold settle. repeat case_match; try done.
  cbn. by rewrite length_insert.
Qed.

(** The two ways [settle] can go. *)
Lemma settle_cases q k v s :
  (exists ow rs,
      promises s !! q = Some (Cell ow Pending rs) /\
      settle q k v s =
        set_jobs (jobs s ++ map (reaction_job k v) rs)
          (set_promises (<[q := Cell ow (settled k v) []]> (promises s)) s))
  \/ (state_of s q <> Some Pending /\ settle q k v s = s).
Proof.
  unfold settle, state_of.
  destruct (promises s !! q) as [[ow [] rs]|] eqn:E; cbn; eauto.
Qed.

Lemma settle_lookup_ne q k v s p :
  p <> q -> promises (settle q k v s) !! p = promises s !! p.
Proof.
  intros Hne. destruct (settle_cases q k v s) as [(ow & rs & _ & ->)|[_ ->]]; [|done].
  cbn. by rewrite list_lookup_insert_ne.
Qed.

(** A settled promise keeps its state. *)
Lemma settle_stable q k v s p st :
  state_of s p = Some st -> st <> Pending ->
  state_of (settle q k v s) p = Some st.
Proof.
  intros Hst Hnp. destruct (settle_cases q k v s) as [(ow & rs & Hq & ->)|[_ ->]]; [|done].
  unfold state_of in *. cbn. destruct (decide (p = q)) as [->|Hne].
  - rewrite Hq in Hst. cbn in Hst. congruence.
  - by rewrite list_lookup_insert_ne.
Qed.

Lemma all_callback_normal f' x s : snd (all_callback f' x s) = Normal VUndefined.
Proof. unfold all_callback. by repeat case_match. Qed.

Lemma call_handler_normal h x s : snd (call_handler h x s) = Normal VUndefined.
Proof. destruct h; [apply all_callback_normal | done]. Qed.

Lemma all_callback_stable f' x s p st :
  state_of s p = Some st -> st <> Pending ->
  state_of (fst (all_callback f' x s)) p = Some st.
Proof.
  intros Hst Hnp. unfold all_callback. repeat case_match; cbn; try done.
  by apply settle_stable.
Qed.

Lemma run_job_stable j s p st :
  state_of s p = Some st -> st <> Pending ->
  state_of (run_job j s) p = Some st.
Proof.
  intros Hst Hnp. unfold run_job. destruct (j_handler j) as [h|].
  - pose proof (call_handler_normal h (j_arg j) s) as Hn.
    destruct (call_handler h (j_arg j) s) as [s' c] eqn:E. cbn in Hn. subst c.
    apply settle_stable; [|done].
    destruct h; cbn in E.
    + replace s' with (fst (all_callback fr (j_arg j) s)) by (by rewrite E).
      by apply all_callback_stable.
    + by inversion E.
  - by apply settle_stable.
Qed.

Lemma step_stable e s p st :
  state_of s p = Some st -> st <> Pending ->
  state_of (step e s) p = Some st.
Proof.
  intros Hst Hnp. destruct e; cbn.
  - unfold env_settle. repeat case_match; try done. by apply settle_stable.
  - unfold env_settle. repeat case_match; try done. by apply settle_stable.
  - destruct (jobs s) as [|j rest]; [done|]. by apply run_job_stable.
Qed.

Lemma run_app es1 es2 s : run (es1 ++ es2) s = run es2 (run es1 s).
Proof. unfold run. by rewrite fold_left_app. Qed.

Lemma run_stable es s p st :
  state_of s p = Some st -> st <> Pending ->
  state_of (run es s) p = Some st.
Proof.
  revert s. induction es as [|e es IH]; intros s Hst Hnp; [done|].
  cbn. apply IH; [|done]. by apply step_stable.
Qed.

(** The three ways [then_] can go on an existing promise. *)
Lemma then_cases p onF onR s :
  let d := length (promises s) in
  let s' := fst (then_ p onF onR s) in
  let new := Cell Internal Pending [] in
  (exists ow rs,
      promises s !! p = Some (Cell ow Pending rs) /\
      promises s' = <[p := Cell ow Pending (rs ++ [Reaction onF onR d])]> (promises s ++ [new]) /\
      jobs s' = jobs s)
  \/ (exists k v,
      state_of s p = Some (settled k v) /\
      promises s' = promises s ++ [new] /\
      jobs s' = jobs s ++ [reaction_job k v (Reaction onF onR d)])
  \/ (promises s !! p = None /\
      promises s' = promises s ++ [new] /\ jobs s' = jobs s).
Proof.
  cbn. unfold then_, state_of.
  destruct (promises s !! p) as [[ow [|v|e] rs]|] eqn:E; cbn.
  - left. by exists ow, rs.
  - right; left. by exists KFulfill, v.
  - right; left. by exists KReject, e.
  - right; right. done.
Qed.

Lemma then_frames p onF onR s : frames (fst (then_ p onF onR s)) = frames s.
Proof. unfold then_. by repeat case_match. Qed.

Lemma then_heap p onF onR s : heap (fst (then_ p onF onR s)) = heap s.
Proof. unfold then_. by repeat case_match. Qed.

Lemma then_console p onF onR s : console (fst (then_ p onF onR s)) = console s.
Proof. unfold then_. by repeat case_match. Qed.

Lemma then_then_calls p onF onR s :
  then_calls (fst (then_ p onF onR s)) = then_calls s ++ [(p, onF, onR)].
Proof. unfold then_. by repeat case_match. Qed.

Lemma then_length p onF onR s :
  length (promises (fst (then_ p onF onR s))) = S (length (promises s)).
Proof.
  destruct (then_cases p onF onR s) as [(ow & rs & _ & -> & _)|[(k & v & _ & -> & _)|(_ & -> & _)]];
    rewrite ?length_insert, length_app; cbn; lia.
Qed.

(** [then_] changes no state and adds at most the new reaction. *)
Lemma then_lookup p onF onR s q c :
  promises (fst (then_ p onF onR s)) !! q = Some c ->
  (q = length (promises s) /\ c = Cell Internal Pending []) \/
  exists c0, promises s !! q = Some c0 /\
    c_owner c = c_owner c0 /\ c_state c = c_state c0 /\
    (c_reactions c = c_reactions c0 \/
     (q = p /\ c_state c0 = Pending /\
      c_reactions c = c_reactions c0 ++ [Reaction onF onR (length (promises s))])).
Proof.
  assert (Hnew : forall c', (promises s ++ [Cell Internal Pending []]) !! q = Some c' ->
            (q = length (promises s) /\ c' = Cell Internal Pending []) \/
            promises s !! q = Some c').
  { intros c' [H|[Hge H]]%lookup_app_Some; [by right|left].
    destruct (q - length (promises s))%nat eqn:E; cbn in H; [|done].
    split; [lia|congruence]. }
  destruct (then_cases p onF onR s) as [(ow & rs & Hp & -> & _)|[(k & v & _ & -> & _)|(_ & -> & _)]].
  - destruct (decide (q = p)) as [->|Hne].
    + rewrite list_lookup_insert_eq.
      2:{ rewrite length_app. apply lookup_lt_Some in Hp. lia. }
      intros [= <-]. right. eexists. split; [done|]. cbn. by eauto 10.
    + rewrite list_lookup_insert_ne by done. intros [?|H]%Hnew; [by left|].
      right. exists c. eauto.
  - intros [?|H]%Hnew; [by left|]. right. exists c. eauto.
  - intros [?|H]%Hnew; [by left|]. right. exists c. eauto.
Qed.

Lemma then_lookup_old p onF onR s q ow st rs :
  promises s !! q = Some (Cell ow st rs) ->
  exists rs', promises (fst (then_ p onF onR s)) !! q = Some (Cell ow st rs').
Proof.
  intros Hq. assert (Hlt : (q < length (promises s))%nat) by (by eapply lookup_lt_Some).
  destruct (then_cases p onF onR s) as [(ow' & rs0 & Hp & -> & _)|[(k & v & _ & -> & _)|(_ & -> & _)]].
  - destruct (decide (q = p)) as [->|Hne].
    + rewrite list_lookup_insert_eq by (rewrite length_app; lia).
      rewrite Hq in Hp. inversion Hp; subst. eauto.
    + rewrite list_lookup_insert_ne, lookup_app_l by done. eauto.
  - rewrite lookup_app_l by done. eauto.
  - rewrite lookup_app_l by done. eauto.
Qed.

Lemma then_state_of p onF onR s q st :
  state_of s q = Some st -> state_of (fst (then_ p onF onR s)) q = Some st.
Proof.
  unfold state_of. destruct (promises s !! q) as [[ow st' rs]|] eqn:E; [|done].
  cbn. intros [= ->].
  destruct (then_lookup_old p onF onR s q _ _ _ E) as [rs' ->]. done.
Qed.

Lemma then_recs (P : reaction -> Prop) p onF onR s :
  (forall q c, promises s !! q = Some c -> Forall P (c_reactions c)) ->
  P (Reaction onF onR (length (promises s))) ->
  forall q c, promises (fst (then_ p onF onR s)) !! q = Some c ->
    Forall P (c_reactions c).
Proof.
  intros Hall Hnew q c Hc.
  destruct (then_lookup _ _ _ _ _ _ Hc) as [[_ ->]|(c0 & H0 & _ & _ & [->|(_ & _ & ->)])].
  - constructor.
  - by eapply Hall.
  - apply Forall_app. split; [by eapply Hall|]. by constructor.
Qed.

Lemma then_jobs (Q : job -> Prop) p onF onR s :
  Forall Q (jobs s) ->
  (forall k v, Q (reaction_job k v (Reaction onF onR (length (promises s))))) ->
  Forall Q (jobs (fst (then_ p onF onR s))).
Proof.
  intros Hall Hnew.
  destruct (then_cases p onF onR s) as [(ow & rs & _ & _ & ->)|[(k & v & _ & _ & ->)|(_ & _ & ->)]];
    try done.
  apply Forall_app. split; [done|]. by constructor.
Qed.

Lemma filter_none {A} (P : A -> Prop) `{!forall x, Decision (P x)} (l : list A) :
  Forall (fun x => ~ P x) l -> filter P l = [].
Proof.
  induction 1 as [|x l Hx _ IH]; [done|]. by rewrite filter_cons_False.
Qed.

Lemma filter_reaction_job d k v rs :
  filter (fun j => j_derived j = d) (map (reaction_job k v) rs) =
  map (reaction_job k v) (filter (fun r => derived r = d) rs).
Proof.
  induction rs as [|r rs IH]; [done|]. cbn [map].
  rewrite !filter_cons. cbn. case_decide; cbn; by rewrite IH.
Qed.

Lemma phase_state_pending ph : phase_state ph = Pending -> ph = PWait.
Proof. by destruct ph. Qed.

Lemma ran_advance k v ph : ran (advance k v ph) = ran ph.
Proof. by destruct ph, k. Qed.

Lemma out_state_pending na arr : (length arr < 2)%nat -> out_state na arr = Pending.
Proof. intros H. unfold out_state. by rewrite (proj2 (Nat.ltb_lt _ _) H). Qed.

Lemma out_state_fulfilled na arr :
  (2 <= length arr)%nat -> out_state na arr = Fulfilled (VArray na).
Proof. intros H. unfold out_state. by rewrite (proj2 (Nat.ltb_ge _ _) H). Qed.

Lemma ran_length ph : (length (ran ph) <= 1)%nat.
Proof. destruct ph; cbn; lia. Qed.

Section Invocation.
(** [np], [nf], [na]: the numbers of promises, frames and arrays when
    [all] was called; the call created the output promise [np], the two
    derived promises [S np] and [S (S np)], frame [nf] and array [na]. *)
Variables (p1 p2 np nf na : nat).
Hypothesis Hp1 : (p1 < np)%nat.
Hypothesis Hp2 : (p2 < np)%nat.

Local Abbreviation cb := (HAllCb nf).

Lemma rec_ok_job k v r : rec_ok np nf r -> job_ok np nf (reaction_job k v r).
Proof.
  intros (H1 & H2 & H3). split; [done|]. destruct k; cbn; [done|]. by intros ?.
Qed.

(** Settling promise [q] moves a listener waiting on [q] along. *)
Lemma slot_settle s p d ph q k v :
  slot nf s p d ph ->
  slot nf (settle q k v s) p d (if decide (q = p) then advance k v ph else ph).
Proof.
  intros (Hst & Hre & Hjo).
  destruct (settle_cases q k v s) as [(ow & rs & Hq & ->)|[Hnp ->]].
  2:{ case_decide as Hqp; [|done]. subst q. rewrite Hst in Hnp.
      destruct ph; try done. }
  pose proof (Hre q _ Hq) as Hrs. cbn in Hrs.
  assert (Hlt : (q < length (promises s))%nat) by (by eapply lookup_lt_Some).
  case_decide as Hqp.
  - subst q. unfold state_of in Hst. rewrite Hq in Hst. cbn in Hst.
    assert (ph = PWait) as -> by (apply phase_state_pending; congruence).
    cbn in Hrs. rewrite decide_True in Hrs by done.
    split; [|split].
    + unfold state_of. cbn. rewrite list_lookup_insert_eq by done. by destruct k.
    + intros q c. cbn. rewrite list_lookup_insert by done.
      case_decide as Hx.
      * intros [= <-]. cbn. by destruct k.
      * intros Hc. rewrite (Hre _ _ Hc). cbn.
        rewrite decide_False by naive_solver. by destruct k.
    + cbn [jobs set_jobs]. rewrite filter_app, filter_reaction_job, Hjo, Hrs.
      by destruct k.
  - split; [|split].
    + unfold state_of in *. cbn. by rewrite list_lookup_insert_ne.
    + intros q' c. cbn. rewrite list_lookup_insert by done.
      case_decide as Hx.
      * intros [= <-]. cbn. destruct Hx as [<- _]. destruct ph; cbn; try done.
        by rewrite decide_False.
      * intros Hc. by rewrite (Hre _ _ Hc).
    + cbn [jobs set_jobs]. rewrite filter_app, filter_reaction_job, Hjo, Hrs.
      destruct ph; cbn; try done. by rewrite decide_False.
Qed.

Lemma core_settle ph1 ph2 arr s q k v :
  core p1 p2 np nf na ph1 ph2 arr s ->
  core p1 p2 np nf na (if decide (q = p1) then advance k v ph1 else ph1)
       (if decide (q = p2) then advance k v ph2 else ph2)
       arr (settle q k v s).
Proof.
  intros [Hf Hh Hfs Hrs Hjs Hs1 Hs2 Ha].
  split; rewrite ?settle_frames, ?settle_heap; try done;
    try by apply slot_settle.
  - destruct (settle_cases q k v s) as [(ow & rs & Hq & ->)|[_ ->]]; [|done].
    assert (Hlt : (q < length (promises s))%nat) by (by eapply lookup_lt_Some).
    intros q' c. cbn. rewrite list_lookup_insert by done. case_decide.
    + intros [= <-]. constructor.
    + apply Hrs.
  - destruct (settle_cases q k v s) as [(ow & rs & Hq & ->)|[_ ->]]; [|done].
    cbn. apply Forall_app. split; [done|]. apply Forall_fmap.
    eapply Forall_impl; [exact (Hrs _ _ Hq)|]. intros r Hr. by apply rec_ok_job.
  - repeat case_decide; by rewrite ?ran_advance.
Qed.

(** Settling any promise but the output keeps the invariant. *)
Lemma inv_settle ph1 ph2 arr s q k v :
  inv p1 p2 np nf na ph1 ph2 arr s -> q <> np ->
  inv p1 p2 np nf na (if decide (q = p1) then advance k v ph1 else ph1)
      (if decide (q = p2) then advance k v ph2 else ph2)
      arr (settle q k v s).
Proof.
  intros [Hc [ors Ho]] Hne. split; [by apply core_settle|].
  exists ors. by rewrite settle_lookup_ne.
Qed.

Lemma slot_pop s p d ph j rest :
  slot nf s p d ph -> jobs s = j :: rest ->
  slot nf (set_jobs rest s) p d (if decide (j_derived j = d) then retire ph else ph)
  /\ (j_derived j = d -> phase_jobs cb d ph = [j]).
Proof.
  intros (Hst & Hre & Hjo) Hj. rewrite Hj, filter_cons in Hjo.
  case_decide as Hd.
  - split; [|intros _].
    + destruct ph; cbn in Hjo; try done; inversion Hjo; by repeat split.
    + destruct ph; cbn in Hjo |- *; try done; by inversion Hjo.
  - split; [by repeat split | done].
Qed.

(** Taking a job that is not one of the two listeners off the queue. *)
Lemma core_pop ph1 ph2 arr s j rest :
  core p1 p2 np nf na ph1 ph2 arr s -> jobs s = j :: rest -> j_handler j <> Some cb ->
  exists ph1' ph2',
    core p1 p2 np nf na ph1' ph2' arr (set_jobs rest s) /\ ran ph1' = ran ph1 /\ ran ph2' = ran ph2.
Proof.
  intros [Hf Hh Hfs Hrs Hjs Hs1 Hs2 Ha] Hj Hcb.
  destruct (slot_pop _ _ _ _ _ _ Hs1 Hj) as [Hs1' Hj1].
  destruct (slot_pop _ _ _ _ _ _ Hs2 Hj) as [Hs2' Hj2].
  assert (R1 : ran (if decide (j_derived j = S np) then retire ph1 else ph1) = ran ph1).
  { destruct (decide (j_derived j = S np)) as [Hd|Hd]; [|done]. specialize (Hj1 Hd).
    destruct ph1; cbn in Hj1 |- *; try done. inversion Hj1 as [Hx].
    rewrite <- Hx in Hcb. done. }
  assert (R2 : ran (if decide (j_derived j = S (S np)) then retire ph2 else ph2) = ran ph2).
  { destruct (decide (j_derived j = S (S np))) as [Hd|Hd]; [|done]. specialize (Hj2 Hd).
    destruct ph2; cbn in Hj2 |- *; try done. inversion Hj2 as [Hx].
    rewrite <- Hx in Hcb. done. }
  eexists _, _. split; [|split; [exact R1 | exact R2]].
  split; cbn; try done.
  - rewrite Hj in Hjs. by inversion Hjs.
  - by rewrite R1, R2.
Qed.

(** The first half of a listener of this call: the job is taken, the
    counter incremented and the value pushed. *)
Lemma core_cb ph1 ph2 arr s j rest :
  core p1 p2 np nf na ph1 ph2 arr s -> jobs s = j :: rest -> j_handler j = Some cb ->
  exists ph1' ph2',
    core p1 p2 np nf na ph1' ph2' (arr ++ [j_arg j])
      (set_heap (alter (fun l => l ++ [j_arg j]) na (heap s))
         (set_frames (<[nf := Frame (Z.of_nat (length arr) + 1) na np]> (frames s))
            (set_jobs rest s)))
    /\ arr = ran ph1 ++ ran ph2
    /\ ((ph1 = PQueued (j_arg j) /\ ph1' = PRan (j_arg j) /\ ph2' = ph2 /\
         j_derived j = S np) \/
        (ph2 = PQueued (j_arg j) /\ ph2' = PRan (j_arg j) /\ ph1' = ph1 /\
         j_derived j = S (S np))).
Proof.
  intros [Hf Hh Hfs Hrs Hjs Hs1 Hs2 Ha] Hj Hcb.
  destruct (slot_pop _ _ _ _ _ _ Hs1 Hj) as [Hs1' Hj1].
  destruct (slot_pop _ _ _ _ _ _ Hs2 Hj) as [Hs2' Hj2].
  assert (Hok : job_ok np nf j) by (rewrite Hj in Hjs; by inversion Hjs).
  assert (Hlf : (nf < length (frames s))%nat) by (by eapply lookup_lt_Some).
  assert (Hrest : Forall (job_ok np nf) rest) by (rewrite Hj in Hjs; by inversion Hjs).
  destruct Hok as [_ Hd]. destruct (Hd Hcb) as [Hd1|Hd2].
  - rewrite decide_True in Hs1' by done.
    rewrite decide_False in Hs2' by lia.
    specialize (Hj1 Hd1).
    destruct ph1; cbn in Hj1; try done; inversion Hj1 as [Hx];
      [|rewrite <- Hx in Hcb; done].
    assert (v = j_arg j) as -> by (by rewrite <- Hx).
    cbn in Ha. rewrite app_nil_r in Ha.
    assert (arr = ran ph2) as -> by (by destruct Ha).
    exists (PRan (j_arg j)), ph2. split; [|split; [done | by left]].
    split; cbn; try done.
    + rewrite list_lookup_insert_eq by done. do 2 f_equal.
      rewrite length_app. cbn. lia.
    + by rewrite list_lookup_alter_eq, Hh.
    + intros f' fr Hne. rewrite list_lookup_insert_ne by done. by apply Hfs.
    + by right.
  - rewrite decide_True in Hs2' by done.
    rewrite decide_False in Hs1' by lia.
    specialize (Hj2 Hd2).
    destruct ph2; cbn in Hj2; try done; inversion Hj2 as [Hx];
      [|rewrite <- Hx in Hcb; done].
    assert (v = j_arg j) as -> by (by rewrite <- Hx).
    cbn in Ha. rewrite app_nil_r in Ha.
    assert (arr = ran ph1) as -> by (by destruct Ha).
    exists ph1, (PRan (j_arg j)). split; [|split; [by rewrite app_nil_r | by right]].
    split; cbn; try done.
    + rewrite list_lookup_insert_eq by done. do 2 f_equal.
      rewrite length_app. cbn. lia.
    + by rewrite list_lookup_alter_eq, Hh.
    + intros f' fr Hne. rewrite list_lookup_insert_ne by done. by apply Hfs.
    + by left.
Qed.

(** A listener of another call of [all] leaves this call alone. *)
Lemma inv_other_cb ph1 ph2 arr s f' x :
  inv p1 p2 np nf na ph1 ph2 arr s -> f' <> nf ->
  exists ph1' ph2',
    inv p1 p2 np nf na ph1' ph2' arr (fst (all_callback f' x s)) /\
    ran ph1' = ran ph1 /\ ran ph2' = ran ph2.
Proof.
  intros [Hc [ors Ho]] Hne. unfold all_callback.
  destruct (frames s !! f') as [[c a' out']|] eqn:Hf';
    [|exists ph1, ph2; split; [split; [done|by exists ors] | done]].
  destruct (core_frames Hc f' _ Hne Hf') as [Ha' Hout']. cbn in Ha', Hout'.
  assert (Hlt : (f' < length (frames s))%nat) by (by eapply lookup_lt_Some).
  set (s1 := set_heap _ _).
  assert (H1 : inv p1 p2 np nf na ph1 ph2 arr s1).
  { destruct Hc as [Hf Hh Hfs Hrs Hjs Hs1 Hs2 Ha].
    split; [|by exists ors]. split; cbn; try done.
    - by rewrite list_lookup_insert_ne.
    - by rewrite list_lookup_alter_ne.
    - intros f'' fr Hne''. rewrite list_lookup_insert by done. case_decide.
      + by intros [= <-].
      + by apply Hfs. }
  destruct (2 <=? c + 1); cbn [fst]; [|exists ph1, ph2; by split].
  eexists _, _. split; [by apply inv_settle|].
  split; case_decide; by rewrite ?ran_advance.
Qed.

(** What one event does to the call: either nothing that shows in
    [result], or the next job was a listener of this call, whose value
    went to the end of [result]. *)
Lemma inv_step e s ph1 ph2 arr :
  inv p1 p2 np nf na ph1 ph2 arr s ->
  exists ph1' ph2' arr',
    inv p1 p2 np nf na ph1' ph2' arr' (step e s) /\
    ((arr' = arr /\ ran ph1' = ran ph1 /\ ran ph2' = ran ph2 /\
      (forall j rest, e = Tick -> jobs s = j :: rest -> j_handler j <> Some cb)) \/
     (e = Tick /\
      exists j rest,
        jobs s = j :: rest /\ j_handler j = Some cb /\
        arr' = arr ++ [j_arg j] /\ arr = ran ph1 ++ ran ph2 /\
        ((ph1 = PQueued (j_arg j) /\ ph1' = PRan (j_arg j) /\ ph2' = ph2 /\
          j_derived j = S np) \/
         (ph2 = PQueued (j_arg j) /\ ph2' = PRan (j_arg j) /\ ph1' = ph1 /\
          j_derived j = S (S np))))).
Proof.
  intros Hinv.
  assert (Henv : forall q k v,
    exists ph1' ph2' arr',
      inv p1 p2 np nf na ph1' ph2' arr' (env_settle q k v s) /\
      (arr' = arr /\ ran ph1' = ran ph1 /\ ran ph2' = ran ph2)).
  { intros q k v. unfold env_settle.
    destruct (promises s !! q) as [[[] [] rs]|] eqn:Hq;
      try (exists ph1, ph2, arr; split; [exact Hinv | done]).
    assert (q <> np).
    { intros ->. destruct Hinv as [_ [ors Ho]]. congruence. }
    eexists _, _, arr. split; [by apply inv_settle|].
    split; [done|]. split; case_decide; by rewrite ?ran_advance. }
  destruct e as [q v|q v|].
  - destruct (Henv q KFulfill v) as (a & b & c & H1 & H2 & H3 & H4).
    exists a, b, c. split; [done|]. left. by repeat split.
  - destruct (Henv q KReject v) as (a & b & c & H1 & H2 & H3 & H4).
    exists a, b, c. split; [done|]. left. by repeat split.
  - cbn. destruct (jobs s) as [|j rest] eqn:Hj.
    { exists ph1, ph2, arr. split; [done|]. left. by repeat split. }
    destruct Hinv as [Hc [ors Ho]].
    assert (Hok : job_ok np nf j).
    { pose proof (core_jobs Hc) as Hjs. rewrite Hj in Hjs. by inversion Hjs. }
    destruct Hok as [Hdo Hdcb].
    unfold run_job.
    destruct (decide (j_handler j = Some cb)) as [Hcb|Hcb].
    + (* a listener of this call *)
      rewrite Hcb. cbn [call_handler]. unfold all_callback.
      cbn [frames set_jobs]. rewrite (core_frame Hc).
      destruct (core_cb _ _ _ _ _ _ Hc Hj Hcb) as (ph1' & ph2' & Hc' & Harr & Hph).
      assert (Hlen : (length arr < 2)%nat).
      { rewrite Harr, length_app.
        pose proof (ran_length ph1). pose proof (ran_length ph2).
        destruct Hph as [(-> & _)|(-> & _)]; cbn in *; lia. }
      rewrite (out_state_pending na _ Hlen) in Ho.
      assert (Hd1 : j_derived j <> p1) by (destruct (Hdcb Hcb); lia).
      assert (Hd2 : j_derived j <> p2) by (destruct (Hdcb Hcb); lia).
      exists ph1', ph2', (arr ++ [j_arg j]).
      split; [|right; split; [done|]; exists j, rest; by repeat split].
      cbn [heap set_jobs set_frames].
      set (s1 := set_heap _ _) in *.
      assert (Ho1 : promises s1 !! np = Some (Cell Internal Pending ors)) by done.
      destruct (2 <=? Z.of_nat (length arr) + 1) eqn:Hge.
      * apply Z.leb_le in Hge.
        pose proof (core_settle _ _ _ _ np KFulfill (VArray na) Hc') as Hc2.
        rewrite !decide_False in Hc2 by lia.
        pose proof (inv_settle ph1' ph2' (arr ++ [j_arg j])
                      (settle np KFulfill (VArray na) s1)
                      (j_derived j) KFulfill VUndefined) as Hfin.
        rewrite !decide_False in Hfin by done.
        apply Hfin; [|done]. split; [done|].
        exists []. rewrite out_state_fulfilled by (rewrite length_app; cbn; lia).
        unfold settle. rewrite Ho1. cbn.
        rewrite list_lookup_insert_eq; [done|]. by eapply lookup_lt_Some.
      * apply Z.leb_gt in Hge.
        pose proof (inv_settle ph1' ph2' (arr ++ [j_arg j]) s1
                      (j_derived j) KFulfill VUndefined) as Hfin.
        rewrite !decide_False in Hfin by done.
        apply Hfin; [|done]. split; [done|].
        exists ors. rewrite out_state_pending by (rewrite length_app; cbn; lia).
        done.
    + (* any other job *)
      destruct (core_pop _ _ _ _ _ _ Hc Hj Hcb) as (ph1' & ph2' & Hc' & R1 & R2).
      assert (Hinv' : inv p1 p2 np nf na ph1' ph2' arr (set_jobs rest s)) by (split; [done|by exists ors]).
      destruct (j_handler j) as [[f'|]|] eqn:Hh.
      * assert (Hne : f' <> nf) by congruence.
        destruct (inv_other_cb _ _ _ _ f' (j_arg j) Hinv' Hne)
          as (ph1'' & ph2'' & Hi & R1' & R2').
        cbn [call_handler].
        pose proof (all_callback_normal f' (j_arg j) (set_jobs rest s)) as Hn.
        destruct (all_callback f' (j_arg j) (set_jobs rest s)) as [s' r].
        cbn in Hn, Hi. subst r.
        eexists _, _, arr. split; [by apply inv_settle|]. left.
        split; [done|]. split; [|split]; [| |intros ? ? _ [= <- _]; congruence];
          case_decide; rewrite ?ran_advance; congruence.
      * cbn [call_handler].
        eexists _, _, arr. split.
        { apply inv_settle; [|done].
          destruct Hinv' as [[] ?]. split; [split|]; done. }
        left. split; [done|]. split; [|split]; [| |intros ? ? _ [= <- _]; congruence];
          case_decide; rewrite ?ran_advance; congruence.
      * eexists _, _, arr. split; [by apply inv_settle|]. left.
        split; [done|]. split; [|split]; [| |intros ? ? _ [= <- _]; congruence];
          case_decide; rewrite ?ran_advance; congruence.
Qed.

(** *** Registration *)

Lemma phase_reactions_ne d p q ph : q <> p -> phase_reactions cb d p q ph = [].
Proof. intros H. destruct ph; cbn; try done. by rewrite decide_False. Qed.

(** Registering the listener whose derived promise is the fresh [d]. *)
Lemma slot_then_new s p d st :
  d = length (promises s) ->
  state_of s p = Some st ->
  (forall q c, promises s !! q = Some c ->
     Forall (fun r => derived r <> d) (c_reactions c)) ->
  Forall (fun j => j_derived j <> d) (jobs s) ->
  slot nf (fst (then_ p (Some cb) None s)) p d (initial_phase st).
Proof.
  intros -> Hst Hrs Hjs.
  assert (Hlt : (p < length (promises s))%nat).
  { unfold state_of in Hst. destruct (promises s !! p) eqn:E; [|done].
    by eapply lookup_lt_Some. }
  split; [|split].
  - rewrite (then_state_of _ _ _ _ _ _ Hst). by destruct st.
  - intros q c Hc.
    destruct (then_lookup _ _ _ _ _ _ Hc)
      as [[-> ->]|(c0 & H0 & _ & Hs0 & [Hsame|(-> & Hpe & ->)])].
    + rewrite phase_reactions_ne by lia. done.
    + rewrite Hsame, (filter_none _ _ (Hrs _ _ H0)).
      destruct (decide (q = p)) as [->|Hne]; [|by rewrite phase_reactions_ne].
      unfold state_of in Hst. rewrite H0 in Hst. cbn in Hst.
      destruct (then_cases p (Some cb) None s)
        as [(ow & rs & Hp & Hps & _)|[(k & v & Hk & _)|(Hn & _)]].
      * rewrite Hps, list_lookup_insert_eq in Hc by (rewrite length_app; lia).
        inversion Hc; subst c. rewrite H0 in Hp. inversion Hp; subst c0.
        cbn in Hsame. apply (f_equal (@length _)) in Hsame.
        rewrite length_app in Hsame. cbn in Hsame. lia.
      * unfold state_of in Hk. rewrite H0 in Hk. cbn in Hk.
        assert (st = settled k v) as -> by congruence. by destruct k.
      * congruence.
    + unfold state_of in Hst. rewrite H0 in Hst. cbn in Hst.
      assert (st = Pending) as -> by congruence. cbn.
      rewrite decide_True by done.
      by rewrite filter_app, (filter_none _ _ (Hrs _ _ H0)), filter_cons_True, filter_nil.
  - destruct (then_cases p (Some cb) None s)
      as [(ow & rs & Hp & _ & ->)|[(k & v & Hk & _ & ->)|(Hn & _ & ->)]].
    + unfold state_of in Hst. rewrite Hp in Hst. cbn in Hst.
      assert (st = Pending) as -> by congruence. cbn. by apply filter_none.
    + assert (st = settled k v) as -> by congruence.
      rewrite filter_app, (filter_none _ _ Hjs), filter_cons_True, filter_nil by done.
      by destruct k.
    + apply lookup_ge_None in Hn. lia.
Qed.

(** Any other registration leaves a listener where it is. *)
Lemma slot_then_other s p d ph q onF onR :
  slot nf s p d ph -> d <> length (promises s) ->
  slot nf (fst (then_ q onF onR s)) p d ph.
Proof.
  intros (Hst & Hre & Hjo) Hd.
  assert (Hlt : (p < length (promises s))%nat).
  { unfold state_of in Hst. destruct (promises s !! p) eqn:E; [|done].
    by eapply lookup_lt_Some. }
  split; [|split].
  - by apply then_state_of.
  - intros q' c Hc.
    destruct (then_lookup _ _ _ _ _ _ Hc)
      as [[-> ->]|(c0 & H0 & _ & Hs0 & [->|(-> & Hpe & ->)])].
    + rewrite phase_reactions_ne by lia. done.
    + by apply Hre.
    + rewrite filter_app, filter_cons_False, filter_nil, app_nil_r by (cbn; congruence).
      by apply Hre.
  - destruct (then_cases q onF onR s)
      as [(ow & rs & Hp & _ & ->)|[(k & v & Hk & _ & ->)|(Hn & _ & ->)]]; try done.
    by rewrite filter_app, filter_cons_False, filter_nil, app_nil_r by (cbn; congruence).
Qed.

(** A later registration of a listener that is not the arrow function
    of this call keeps the invariant. *)
Lemma inv_then ph1 ph2 arr s q onF onR :
  inv p1 p2 np nf na ph1 ph2 arr s ->
  (S (S np) < length (promises s))%nat ->
  onF <> Some cb -> onR <> Some cb ->
  inv p1 p2 np nf na ph1 ph2 arr (fst (then_ q onF onR s)).
Proof.
  intros [[Hf Hh Hfs Hrs Hjs Hs1 Hs2 Ha] [ors Ho]] Hlen HF HR.
  split; [split|]; rewrite ?then_frames, ?then_heap; try done.
  - apply then_recs; [done|]. repeat split; cbn; try done; lia.
  - apply then_jobs; [done|]. intros k v. split; cbn; [lia|]. by destruct k.
  - apply slot_then_other; [done|lia].
  - apply slot_then_other; [done|lia].
  - by eapply then_lookup_old.
Qed.
End Invocation.

(** ** From the call to every schedule *)

Lemma handler_wf_fresh nf h : handler_wf nf h = true -> h <> Some (HAllCb nf).
Proof.
  intros H ->. cbn in H. apply Nat.ltb_lt in H. lia.
Qed.

Lemma wf_reactions s q c :
  wf s = true -> promises s !! q = Some c ->
  Forall (fun r => (derived r < length (promises s))%nat /\
                   on_fulfilled r <> Some (HAllCb (length (frames s))) /\
                   on_rejected r <> Some (HAllCb (length (frames s))))
         (c_reactions c).
Proof.
  unfold wf. rewrite !andb_true_iff, !forallb_forall.
  intros [[H _] _] Hq. apply Forall_forall. intros r Hr.
  assert (Hc : In c (promises s)).
  { apply list_elem_of_In, list_elem_of_lookup. eauto. }
  specialize (H c Hc). rewrite forallb_forall in H.
  specialize (H r (proj1 (list_elem_of_In _ _) Hr)).
  unfold reaction_wf in H. rewrite !andb_true_iff in H.
  destruct H as [[H1 H2] H3]. apply Nat.ltb_lt in H3.
  eauto using handler_wf_fresh.
Qed.

Lemma wf_jobs s :
  wf s = true ->
  Forall (fun j => (j_derived j < length (promises s))%nat /\
                   j_handler j <> Some (HAllCb (length (frames s))))
         (jobs s).
Proof.
  unfold wf. rewrite !andb_true_iff, !forallb_forall.
  intros [[_ H] _]. apply Forall_forall. intros j Hj.
  specialize (H j (proj1 (list_elem_of_In _ _) Hj)).
  unfold job_wf in H. rewrite !andb_true_iff in H.
  destruct H as [H1 H2]. apply Nat.ltb_lt in H2.
  eauto using handler_wf_fresh.
Qed.

Lemma wf_frames s f' fr :
  wf s = true -> frames s !! f' = Some fr ->
  (result fr < length (heap s))%nat /\ (fulfill fr < length (promises s))%nat.
Proof.
  unfold wf. rewrite !andb_true_iff, !forallb_forall.
  intros [_ H] Hq.
  assert (Hc : In fr (frames s)).
  { apply list_elem_of_In, list_elem_of_lookup. eauto. }
  specialize (H fr Hc). unfold frame_wf in H. rewrite !andb_true_iff in H.
  destruct H as [H1 H2]. apply Nat.ltb_lt in H1, H2. done.
Qed.
Lemma all_unfold p1 p2 s :
  all (APromise p1) (APromise p2) s =
  (fst (then_ p2 (Some (HAllCb (length (frames s)))) None
     (fst (then_ p1 (Some (HAllCb (length (frames s)))) None (entered s)))),
   Normal (length (promises s))).
Proof.
  unfold all, new_promise, all_executor, bind, enter_executor, then_arg, ret.
  cbn [frames heap set_promises promises].
  fold (entered s).
  destruct (then_ p1 _ None (entered s)) as [s1 d1] eqn:E1. cbn [fst].
  destruct (then_ p2 _ None s1) as [s2 d2] eqn:E2. done.
Qed.


Section Called.
Variables (s0 : state) (p1 p2 : nat) (st1 st2 : pstate).
Hypothesis Hwf : wf s0 = true.
Hypothesis Hst1 : state_of s0 p1 = Some st1.
Hypothesis Hst2 : state_of s0 p2 = Some st2.

Local Abbreviation np := (length (promises s0)).
Local Abbreviation nf := (length (frames s0)).
Local Abbreviation na := (length (heap s0)).

Lemma handle_lt p st : state_of s0 p = Some st -> (p < np)%nat.
Proof.
  unfold state_of. destruct (promises s0 !! p) eqn:E; [|done].
  intros _. by eapply lookup_lt_Some.
Qed.

Lemma entered_lookup q c :
  promises (entered s0) !! q = Some c ->
  c = Cell Internal Pending [] \/ promises s0 !! q = Some c.
Proof.
  cbn. intros [H|[Hge H]]%lookup_app_Some; [by right|left].
  destruct (q - np)%nat; cbn in H; [congruence|done].
Qed.

Lemma all_inv :
  inv p1 p2 np nf na (initial_phase st1) (initial_phase st2) []
    (called p1 p2 s0).
Proof.
  pose proof (handle_lt _ _ Hst1) as Hp1.
  pose proof (handle_lt _ _ Hst2) as Hp2.
  unfold called, state_after. rewrite all_unfold. cbn [fst].
  set (sb := entered s0).
  set (s1 := fst (then_ p1 (Some (HAllCb nf)) None sb)).
  assert (Hlb : length (promises sb) = S np).
  { cbn. rewrite length_app. cbn. lia. }
  assert (Hl1 : length (promises s1) = S (S np)).
  { unfold s1. by rewrite then_length, Hlb. }
  assert (Hrb : forall q c, promises sb !! q = Some c ->
            Forall (fun r => (derived r < np)%nat /\
                             on_fulfilled r <> Some (HAllCb nf) /\
                             on_rejected r <> Some (HAllCb nf)) (c_reactions c)).
  { intros q c [->|H]%entered_lookup; [constructor|]. by eapply wf_reactions. }
  assert (Hjb : Forall (fun j => (j_derived j < np)%nat /\
                                 j_handler j <> Some (HAllCb nf)) (jobs sb)).
  { change (jobs sb) with (jobs s0). by apply wf_jobs. }
  assert (Hs1b : state_of sb p1 = Some st1).
  { unfold state_of in *. cbn. by rewrite lookup_app_l. }
  assert (Hs2b : state_of sb p2 = Some st2).
  { unfold state_of in *. cbn. by rewrite lookup_app_l. }
  assert (Hf1 : frames s1 = frames sb) by apply then_frames.
  assert (Hh1 : heap s1 = heap sb) by apply then_heap.
  split; [split|]; rewrite ?then_frames, ?then_heap, ?Hf1, ?Hh1.
  - cbn. by rewrite list_lookup_middle.
  - cbn. by rewrite list_lookup_middle.
  - cbn. intros f' fr Hne [H|[Hge H]]%lookup_app_Some.
    + destruct (wf_frames _ _ _ Hwf H). lia.
    + destruct (f' - nf)%nat eqn:E; cbn in H; [lia|done].
  - apply then_recs; [apply then_recs|].
    + intros q c Hc. eapply Forall_impl; [exact (Hrb _ _ Hc)|].
      intros r (H1 & H2 & H3). repeat split; [lia|done|done].
    + rewrite Hlb. repeat split; cbn; [lia|done|by left].
    + fold s1. rewrite Hl1. repeat split; cbn; [lia|done|by right].
  - apply then_jobs; [apply then_jobs|].
    + eapply Forall_impl; [exact Hjb|]. intros j [H1 H2]. split; [lia|done].
    + intros k v. rewrite Hlb. split; cbn; [lia|]. destruct k; cbn; [by left|done].
    + intros k v. fold s1. rewrite Hl1. split; cbn; [lia|].
      destruct k; cbn; [by right|done].
  - apply (slot_then_other p1 p2 np nf Hp1 Hp2); [|fold s1; lia].
    apply (slot_then_new p1 p2 np nf Hp1 Hp2); [done|done| |].
    + intros q c Hc. eapply Forall_impl; [exact (Hrb _ _ Hc)|].
      intros r (H1 & _). cbn in *. lia.
    + eapply Forall_impl; [exact Hjb|]. intros j [H1 _]. cbn in *. lia.
  - apply (slot_then_new p1 p2 np nf Hp1 Hp2); [done|by apply then_state_of| |].
    + apply then_recs.
      * intros q c Hc. eapply Forall_impl; [exact (Hrb _ _ Hc)|].
        intros r (H1 & _). cbn in *. lia.
      * cbn. rewrite length_app. cbn. lia.
    + apply then_jobs.
      * eapply Forall_impl; [exact Hjb|]. intros j [H1 _]. cbn in *. lia.
      * intros k v. cbn. rewrite length_app. cbn. lia.
  - left. by destruct st1, st2.
  - assert (Hob : promises sb !! np = Some (Cell Internal Pending [])).
    { cbn. by rewrite list_lookup_middle. }
    destruct (then_lookup_old p1 (Some (HAllCb nf)) None _ _ _ _ _ Hob) as [rs1 H1].
    destruct (then_lookup_old p2 (Some (HAllCb nf)) None _ _ _ _ _ H1) as [rs2 H2].
    exists rs2. exact H2.
Qed.

End Called.

(** ** Jobs that can still run *)

Lemma sum_list_with_insert {A} (f : A -> nat) (l : list A) i x y :
  l !! i = Some x ->
  (sum_list_with f (<[i:=y]> l) + f x = sum_list_with f l + f y)%nat.
Proof.
  revert i. induction l as [|a l IH]; intros [|i] H; try done.
  - simpl in *. inversion H; subst. lia.
  - change (<[S i:=y]> (a :: l)) with (a :: <[i:=y]> l).
    change ((a :: l) !! S i) with (l !! i) in H.
    specialize (IH i H). simpl. lia.
Qed.

Section Potential.
Variables (wr : reaction -> nat) (wj : job -> nat).
Hypothesis wj_le : forall k v r, (wj (reaction_job k v r) <= wr r)%nat.

Lemma sum_jobs_le k v rs :
  (sum_list_with wj (map (reaction_job k v) rs) <= sum_list_with wr rs)%nat.
Proof.
  induction rs as [|r rs IH]; cbn; [done|]. pose proof (wj_le k v r). lia.
Qed.

Lemma potential_settle q k v s :
  (potential wr wj (settle q k v s) <= potential wr wj s)%nat.
Proof.
  destruct (settle_cases q k v s) as [(ow & rs & Hq & ->)|[_ ->]]; [|done].
  unfold potential. cbn. rewrite sum_list_with_app.
  pose proof (sum_jobs_le k v rs).
  pose proof (sum_list_with_insert
                (fun c => sum_list_with wr (c_reactions c))
                _ _ _ (Cell ow (settled k v) []) Hq) as Hi.
  cbn in Hi. lia.
Qed.

Lemma potential_callback f x s :
  (potential wr wj (fst (all_callback f x s)) <= potential wr wj s)%nat.
Proof.
  unfold all_callback. repeat case_match; cbn [fst]; try done.
  etrans; [apply potential_settle|]. done.
Qed.

Lemma potential_run_job j s :
  (potential wr wj (run_job j s) <= potential wr wj s)%nat.
Proof.
  unfold run_job. destruct (j_handler j) as [[f|]|].
  - cbn [call_handler].
    pose proof (all_callback_normal f (j_arg j) s) as Hn.
    pose proof (potential_callback f (j_arg j) s) as Hp.
    destruct (all_callback f (j_arg j) s) as [s' r]. cbn in Hn, Hp. subst r.
    etrans; [apply potential_settle|]. done.
  - cbn. etrans; [apply potential_settle|]. done.
  - apply potential_settle.
Qed.

Lemma potential_tick s j rest :
  jobs s = j :: rest ->
  (potential wr wj (step Tick s) + wj j <= potential wr wj s)%nat.
Proof.
  intros Hj. cbn. rewrite Hj.
  pose proof (potential_run_job j (set_jobs rest s)) as H.
  unfold potential in *. rewrite Hj. cbn in *. lia.
Qed.

Lemma potential_step e s :
  (potential wr wj (step e s) <= potential wr wj s)%nat.
Proof.
  destruct e; cbn.
  - unfold env_settle. repeat case_match; try done. apply potential_settle.
  - unfold env_settle. repeat case_match; try done. apply potential_settle.
  - destruct (jobs s) as [|j rest] eqn:Hj; [done|].
    pose proof (potential_tick s j rest Hj) as H. cbn in H. rewrite Hj in H. lia.
Qed.

Lemma potential_then p onF onR s :
  (potential wr wj (fst (then_ p onF onR s)) <=
   potential wr wj s + wr (Reaction onF onR (length (promises s))))%nat.
Proof.
  unfold potential.
  destruct (then_cases p onF onR s)
    as [(ow & rs & Hp & -> & ->)|[(k & v & _ & -> & ->)|(_ & -> & ->)]];
    rewrite ?sum_list_with_app; cbn.
  - assert (Hp' : (promises s ++ [Cell Internal Pending []]) !! p =
                  Some (Cell ow Pending rs)) by (by apply lookup_app_l_Some).
    pose proof (sum_list_with_insert
                  (fun c => sum_list_with wr (c_reactions c))
                  _ _ _ (Cell ow Pending (rs ++ [Reaction onF onR (length (promises s))])) Hp') as Hi.
    cbn in Hi. rewrite !sum_list_with_app in Hi. cbn in Hi. lia.
  - pose proof (wj_le k v (Reaction onF onR (length (promises s)))). lia.
  - lia.
Qed.

Lemma potential_entered s : potential wr wj (entered s) = potential wr wj s.
Proof. unfold potential. cbn. rewrite sum_list_with_app. cbn. lia. Qed.
End Potential.

Lemma work_tick s j rest :
  jobs s = j :: rest -> (work (step Tick s) < work s)%nat.
Proof.
  intros Hj.
  pose proof (potential_tick (fun _ => 1%nat) (fun _ => 1%nat)
                (fun _ _ _ => le_n _) s j rest Hj) as H.
  cbv beta in H. unfold work. lia.
Qed.

(** With fuel [work s] the queue runs empty. *)
Lemma drain_empty n s : (work s <= n)%nat -> jobs (drain n s) = [].
Proof.
  revert s. induction n as [|n IH]; intros s Hn.
  - cbn. unfold work, potential in Hn. destruct (jobs s); [done|cbn in Hn; lia].
  - cbn [drain]. destruct (jobs s) as [|j rest] eqn:Hj; [done|].
    apply IH. pose proof (work_tick s j rest Hj). lia.
Qed.

(** Draining is a schedule of ticks. *)
Lemma drain_run n s : exists k, drain n s = run (replicate k Tick) s.
Proof.
  revert s. induction n as [|n IH]; intros s; [by exists 0%nat|].
  cbn [drain]. destruct (jobs s) as [|j rest] eqn:Hj; [by exists 0%nat|].
  destruct (IH (step Tick s)) as [k Hk]. exists (S k). by rewrite Hk.
Qed.

Lemma logs_le k v r :
  (logs (j_handler (reaction_job k v r)) <=
   logs (on_fulfilled r) + logs (on_rejected r))%nat.
Proof. destruct k; cbn; lia. Qed.

Lemma all_callback_console f x s : console (fst (all_callback f x s)) = console s.
Proof.
  unfold all_callback. repeat case_match; cbn [fst]; try done.
  by rewrite settle_console.
Qed.

Lemma run_job_console j s :
  length (console (run_job j s)) = (length (console s) + logs (j_handler j))%nat.
Proof.
  unfold run_job. destruct (j_handler j) as [[f|]|]; cbn [logs call_handler].
  - pose proof (all_callback_normal f (j_arg j) s) as Hn.
    pose proof (all_callback_console f (j_arg j) s) as Hc.
    destruct (all_callback f (j_arg j) s) as [s' r]. cbn in Hn, Hc. subst r.
    rewrite settle_console, Hc. lia.
  - rewrite settle_console. cbn. rewrite length_app. cbn. lia.
  - rewrite settle_console. lia.
Qed.

(** Each line on the console uses up one [console.log] listener. *)
Lemma console_step e s :
  (length (console (step e s)) + loggers (step e s) <=
   length (console s) + loggers s)%nat.
Proof.
  destruct e.
  - pose proof (potential_step (fun r => (logs (on_fulfilled r) + logs (on_rejected r))%nat)
                  (fun j => logs (j_handler j)) logs_le (EnvFulfill p v) s) as H.
    unfold loggers. cbn in *. unfold env_settle in *.
    repeat case_match; rewrite ?settle_console; lia.
  - pose proof (potential_step (fun r => (logs (on_fulfilled r) + logs (on_rejected r))%nat)
                  (fun j => logs (j_handler j)) logs_le (EnvReject p e) s) as H.
    unfold loggers. cbn in *. unfold env_settle in *.
    repeat case_match; rewrite ?settle_console; lia.
  - destruct (jobs s) as [|j rest] eqn:Hj.
    + cbn. rewrite Hj. lia.
    + pose proof (potential_tick (fun r => (logs (on_fulfilled r) + logs (on_rejected r))%nat)
                  (fun j => logs (j_handler j)) logs_le s j rest Hj) as H.
      unfold loggers. cbn in *. rewrite Hj in *.
      rewrite run_job_console. cbn. lia.
Qed.

Lemma console_run es s :
  (length (console (run es s)) + loggers (run es s) <=
   length (console s) + loggers s)%nat.
Proof.
  revert s. induction es as [|e es IH]; intros s; [done|].
  cbn. etrans; [apply IH|]. apply console_step.
Qed.

(** ** What the invariant says about the output promise *)

Section Consequences.
Variables (p1 p2 np nf na : nat).
Hypothesis Hp1 : (p1 < np)%nat.
Hypothesis Hp2 : (p2 < np)%nat.

Lemma inv_run ph1 ph2 arr s es :
  inv p1 p2 np nf na ph1 ph2 arr s ->
  exists ph1' ph2' arr', inv p1 p2 np nf na ph1' ph2' arr' (run es s).
Proof.
  revert ph1 ph2 arr s. induction es as [|e es IH]; intros ph1 ph2 arr s Hinv.
  - by exists ph1, ph2, arr.
  - destruct (inv_step _ _ _ _ _ Hp1 Hp2 e _ _ _ _ Hinv) as (a & b & c & H & _).
    cbn. by eapply IH.
Qed.

Lemma inv_out_state ph1 ph2 arr s :
  inv p1 p2 np nf na ph1 ph2 arr s -> state_of s np = Some (out_state na arr).
Proof. intros [_ [rs Ho]]. unfold state_of. by rewrite Ho. Qed.

Lemma inv_phase1 ph1 ph2 arr s :
  inv p1 p2 np nf na ph1 ph2 arr s -> state_of s p1 = Some (phase_state ph1).
Proof. intros [Hc _]. by destruct (core_slot1 Hc). Qed.

Lemma inv_phase2 ph1 ph2 arr s :
  inv p1 p2 np nf na ph1 ph2 arr s -> state_of s p2 = Some (phase_state ph2).
Proof. intros [Hc _]. by destruct (core_slot2 Hc). Qed.

Lemma inv_length ph1 ph2 arr s :
  inv p1 p2 np nf na ph1 ph2 arr s ->
  length arr = (length (ran ph1) + length (ran ph2))%nat.
Proof.
  intros [Hc _]. destruct (core_arr Hc) as [-> | ->]; rewrite length_app; lia.
Qed.

(** The output promise is never rejected. *)
Lemma inv_not_rejected ph1 ph2 arr s e :
  inv p1 p2 np nf na ph1 ph2 arr s -> state_of s np <> Some (Rejected e).
Proof.
  intros Hinv. rewrite (inv_out_state _ _ _ _ Hinv). unfold out_state.
  by case_match.
Qed.

(** An input that rejected keeps the output promise pending. *)
Lemma inv_rejected_pending ph1 ph2 arr s e :
  inv p1 p2 np nf na ph1 ph2 arr s ->
  state_of s p1 = Some (Rejected e) \/ state_of s p2 = Some (Rejected e) ->
  state_of s np = Some Pending.
Proof.
  intros Hinv Hrej. rewrite (inv_out_state _ _ _ _ Hinv).
  f_equal. apply out_state_pending. rewrite (inv_length _ _ _ _ Hinv).
  pose proof (ran_length ph1) as L1. pose proof (ran_length ph2) as L2.
  destruct Hrej as [H|H].
  - rewrite (inv_phase1 _ _ _ _ Hinv) in H. destruct ph1; cbn in *; try done; lia.
  - rewrite (inv_phase2 _ _ _ _ Hinv) in H. destruct ph2; cbn in *; try done; lia.
Qed.

(** A settled output promise means that both listeners have run. *)
Lemma inv_settled_ran ph1 ph2 arr s :
  inv p1 p2 np nf na ph1 ph2 arr s ->
  state_of s np <> Some Pending ->
  exists v1 v2, ph1 = PRan v1 /\ ph2 = PRan v2.
Proof.
  intros Hinv Hne. rewrite (inv_out_state _ _ _ _ Hinv) in Hne.
  assert (Hlen : (2 <= length arr)%nat).
  { destruct (decide (length arr < 2)%nat) as [H|H]; [|lia].
    by rewrite out_state_pending in Hne. }
  rewrite (inv_length _ _ _ _ Hinv) in Hlen.
  destruct ph1, ph2; cbn in Hlen; try lia. eauto.
Qed.

(** Both inputs fulfilled and nothing left in the queue: the output
    promise is fulfilled with [result], which holds the two values. *)
Lemma inv_fulfilled_done ph1 ph2 arr s v1 v2 :
  inv p1 p2 np nf na ph1 ph2 arr s ->
  state_of s p1 = Some (Fulfilled v1) ->
  state_of s p2 = Some (Fulfilled v2) ->
  jobs s = [] ->
  state_of s np = Some (Fulfilled (VArray na)) /\
  (heap s !! na = Some [v1; v2] \/ heap s !! na = Some [v2; v1]).
Proof.
  intros Hinv H1 H2 Hj.
  rewrite (inv_phase1 _ _ _ _ Hinv) in H1. rewrite (inv_phase2 _ _ _ _ Hinv) in H2.
  rewrite (inv_out_state _ _ _ _ Hinv).
  destruct Hinv as [Hc _].
  destruct (core_slot1 Hc) as (_ & _ & Hj1). destruct (core_slot2 Hc) as (_ & _ & Hj2).
  rewrite Hj in Hj1, Hj2. rewrite (core_heap Hc).
  destruct ph1; cbn in H1, Hj1; try done. destruct ph2; cbn in H2, Hj2; try done.
  inversion H1; inversion H2; subst.
  destruct (core_arr Hc) as [-> | ->]; cbn; eauto.
Qed.

(** After the output promise has settled no event changes [result]. *)
Lemma inv_step_settled ph1 ph2 arr s e :
  inv p1 p2 np nf na ph1 ph2 arr s ->
  state_of s np <> Some Pending ->
  heap (step e s) !! na = heap s !! na.
Proof.
  intros Hinv Hne.
  destruct (inv_settled_ran _ _ _ _ Hinv Hne) as (v1 & v2 & -> & ->).
  destruct (inv_step _ _ _ _ _ Hp1 Hp2 e _ _ _ _ Hinv)
    as (a & b & c & [Hc' _] & [(-> & _)|(_ & j & rest & _ & _ & _ & _ & [(? & _)|(? & _)])]);
    try done.
  destruct Hinv as [Hc _]. by rewrite (core_heap Hc), (core_heap Hc').
Qed.

(** The output promise leaves the pending state only in a tick that runs
    a listener of the call, and both inputs were fulfilled before it. *)
Lemma inv_step_settling ph1 ph2 arr s e :
  inv p1 p2 np nf na ph1 ph2 arr s ->
  state_of s np = Some Pending ->
  state_of (step e s) np <> Some Pending ->
  e = Tick /\
  (exists j rest, jobs s = j :: rest /\ j_handler j = Some (HAllCb nf)) /\
  (exists v1 v2, state_of s p1 = Some (Fulfilled v1) /\
                 state_of s p2 = Some (Fulfilled v2)).
Proof.
  intros Hinv Hpen Hne.
  rewrite (inv_phase1 _ _ _ _ Hinv), (inv_phase2 _ _ _ _ Hinv).
  rewrite (inv_out_state _ _ _ _ Hinv) in Hpen.
  destruct (inv_step _ _ _ _ _ Hp1 Hp2 e _ _ _ _ Hinv)
    as (a & b & c & Hinv' & [(-> & _)|(-> & j & rest & Hj & Hcb & -> & Harr & Hph)]).
  - rewrite (inv_out_state _ _ _ _ Hinv') in Hne. congruence.
  - split; [done|]. split; [by eauto|].
    destruct (inv_settled_ran _ _ _ _ Hinv' Hne) as (v1 & v2 & Ea & Eb).
    destruct Hph as [(-> & Ha & Hb & _)|(-> & Hb & Ha & _)]; subst; cbn; eauto.
Qed.

(** A tick that runs a listener of the call puts the value of its job at
    the end of [result]. *)
Lemma inv_step_push ph1 ph2 arr s j rest :
  inv p1 p2 np nf na ph1 ph2 arr s ->
  jobs s = j :: rest -> j_handler j = Some (HAllCb nf) ->
  heap s !! na = Some arr /\ heap (step Tick s) !! na = Some (arr ++ [j_arg j]).
Proof.
  intros Hinv Hj Hcb.
  destruct (inv_step _ _ _ _ _ Hp1 Hp2 Tick _ _ _ _ Hinv)
    as (a & b & c & [Hc' _] & [(_ & _ & _ & Hno)|(_ & j' & rest' & Hj' & _ & -> & _)]).
  - by destruct (Hno j rest eq_refl Hj).
  - rewrite Hj in Hj'. inversion Hj'; subst.
    destruct Hinv as [Hc _]. by rewrite (core_heap Hc), (core_heap Hc').
Qed.
End Consequences.

(** ** Which listener runs first *)

(** Events only take the head of the queue and add jobs at its end. *)
Lemma settle_jobs q k v s : exists extra, jobs (settle q k v s) = jobs s ++ extra.
Proof.
  destruct (settle_cases q k v s) as [(ow & rs & _ & ->)|[_ ->]].
  - by eexists.
  - exists []. by rewrite app_nil_r.
Qed.

Lemma all_callback_jobs f x s :
  exists extra, jobs (fst (all_callback f x s)) = jobs s ++ extra.
Proof.
  unfold all_callback.
  destruct (frames s !! f) as [[c a out]|]; [|exists []; by rewrite app_nil_r].
  destruct (2 <=? c + 1); cbn [fst]; [|exists []; by rewrite app_nil_r].
  set (s1 := set_heap _ _).
  destruct (settle_jobs out KFulfill (VArray a) s1) as [extra H]. by exists extra.
Qed.

Lemma run_job_jobs j s : exists extra, jobs (run_job j s) = jobs s ++ extra.
Proof.
  unfold run_job. destruct (j_handler j) as [[f|]|]; cbn [call_handler].
  - pose proof (all_callback_normal f (j_arg j) s) as Hn.
    destruct (all_callback_jobs f (j_arg j) s) as [x1 H1].
    destruct (all_callback f (j_arg j) s) as [s' r]. cbn in Hn, H1. subst r.
    destruct (settle_jobs (j_derived j) KFulfill VUndefined s') as [x2 H2].
    exists (x1 ++ x2). by rewrite H2, H1, app_assoc.
  - set (s1 := set_console _ s).
    destruct (settle_jobs (j_derived j) KFulfill VUndefined s1) as [extra H].
    by exists extra.
  - apply settle_jobs.
Qed.

Lemma step_jobs e s :
  exists extra,
    jobs (step e s) =
    match e with Tick => tail (jobs s) | _ => jobs s end ++ extra.
Proof.
  destruct e; cbn.
  - unfold env_settle. repeat case_match; try (exists []; by rewrite app_nil_r).
    apply settle_jobs.
  - unfold env_settle. repeat case_match; try (exists []; by rewrite app_nil_r).
    apply settle_jobs.
  - destruct (jobs s) as [|j rest] eqn:Hj; [exists []; by rewrite Hj|].
    destruct (run_job_jobs j (set_jobs rest s)) as [extra H]. by exists extra.
Qed.

Lemma cb_jobs_app nf l1 l2 : cb_jobs nf (l1 ++ l2) = cb_jobs nf l1 ++ cb_jobs nf l2.
Proof. apply filter_app. Qed.

(** When none of the listener jobs carries [d1], they all carry [d2]. *)
Lemma cb_jobs_only nf d1 d2 l :
  Forall (fun j => j_handler j = Some (HAllCb nf) ->
                   j_derived j = d1 \/ j_derived j = d2) l ->
  cb_jobs nf (filter (fun j => j_derived j = d1) l) = [] ->
  cb_jobs nf l = cb_jobs nf (filter (fun j => j_derived j = d2) l).
Proof.
  unfold cb_jobs. induction 1 as [|x l Hx _ IH]; [done|]. intros Hnil.
  rewrite !(filter_cons _ x) in *.
  destruct (decide (j_handler x = Some (HAllCb nf))) as [Hc|Hc].
  - destruct (decide (j_derived x = d1)) as [H1|H1].
    + rewrite filter_cons_True in Hnil by done. done.
    + destruct (Hx Hc) as [?|H2]; [done|].
      rewrite decide_True by done. rewrite filter_cons_True by done.
      f_equal. by apply IH.
  - destruct (decide (j_derived x = d1)) as [H1|H1];
      [rewrite filter_cons_False in Hnil by done|];
      (destruct (decide (j_derived x = d2)) as [H2|H2];
       [rewrite filter_cons_False by done|]); by apply IH.
Qed.

(** With at most one listener job per derived promise, the listener jobs
    of the queue are those two, in one order or the other. *)
Lemma cb_jobs_split nf d1 d2 l :
  d1 <> d2 ->
  Forall (fun j => j_handler j = Some (HAllCb nf) ->
                   j_derived j = d1 \/ j_derived j = d2) l ->
  (length (cb_jobs nf (filter (fun j => j_derived j = d1) l)) <= 1)%nat ->
  (length (cb_jobs nf (filter (fun j => j_derived j = d2) l)) <= 1)%nat ->
  cb_jobs nf l = cb_jobs nf (filter (fun j => j_derived j = d1) l) ++
                 cb_jobs nf (filter (fun j => j_derived j = d2) l) \/
  cb_jobs nf l = cb_jobs nf (filter (fun j => j_derived j = d2) l) ++
                 cb_jobs nf (filter (fun j => j_derived j = d1) l).
Proof.
  intros Hne Hall. induction Hall as [|x l Hx Hall IH]; [by left|]. intros L1 L2.
  assert (Hswap : Forall (fun j => j_handler j = Some (HAllCb nf) ->
                                   j_derived j = d2 \/ j_derived j = d1) l).
  { eapply Forall_impl; [exact Hall|]. cbn. intros j H Hc. destruct (H Hc); eauto. }
  unfold cb_jobs in *. rewrite !(filter_cons _ x) in *.
  destruct (decide (j_handler x = Some (HAllCb nf))) as [Hc|Hc].
  - destruct (Hx Hc) as [H1|H2].
    + rewrite decide_True in * by done. rewrite (decide_False (P:=j_derived x = d2)) in * by congruence.
      rewrite filter_cons_True in * by done. cbn in L1.
      assert (Hnil : filter (fun j => j_handler j = Some (HAllCb nf))
                       (filter (fun j => j_derived j = d1) l) = []).
      { destruct (filter (fun j => j_handler j = Some (HAllCb nf))
                   (filter (fun j => j_derived j = d1) l)); [done|cbn in L1; lia]. }
      left. rewrite Hnil. cbn. f_equal. by apply (cb_jobs_only nf d1 d2).
    + rewrite (decide_True (P:=j_derived x = d2)) in * by done.
      rewrite (decide_False (P:=j_derived x = d1)) in * by congruence.
      rewrite filter_cons_True in * by done. cbn in L2.
      assert (Hnil : filter (fun j => j_handler j = Some (HAllCb nf))
                       (filter (fun j => j_derived j = d2) l) = []).
      { destruct (filter (fun j => j_handler j = Some (HAllCb nf))
                   (filter (fun j => j_derived j = d2) l)); [done|cbn in L2; lia]. }
      right. rewrite Hnil. cbn. f_equal. by apply (cb_jobs_only nf d2 d1).
  - assert (E1 : filter (fun j => j_handler j = Some (HAllCb nf))
                   (if decide (j_derived x = d1)
                    then x :: filter (fun j => j_derived j = d1) l
                    else filter (fun j => j_derived j = d1) l) =
                 filter (fun j => j_handler j = Some (HAllCb nf))
                   (filter (fun j => j_derived j = d1) l)).
    { destruct (decide (j_derived x = d1)); [by rewrite filter_cons_False|done]. }
    assert (E2 : filter (fun j => j_handler j = Some (HAllCb nf))
                   (if decide (j_derived x = d2)
                    then x :: filter (fun j => j_derived j = d2) l
                    else filter (fun j => j_derived j = d2) l) =
                 filter (fun j => j_handler j = Some (HAllCb nf))
                   (filter (fun j => j_derived j = d2) l)).
    { destruct (decide (j_derived x = d2)); [by rewrite filter_cons_False|done]. }
    rewrite E1, E2 in *. by apply IH.
Qed.

Lemma cb_jobs_phase nf d ph : cb_jobs nf (phase_jobs (HAllCb nf) d ph) = queued_cb nf d ph.
Proof.
  unfold cb_jobs. destruct ph; cbn [phase_jobs queued_cb]; try done.
  by rewrite filter_cons_True, filter_nil.
Qed.

Lemma queued_cb_length nf d ph : (length (queued_cb nf d ph) <= 1)%nat.
Proof. destruct ph; cbn; lia. Qed.

(** The listener jobs of the queue, from the phases. *)
Lemma core_cb_jobs p1 p2 np nf na ph1 ph2 arr s :
  core p1 p2 np nf na ph1 ph2 arr s ->
  cb_jobs nf (jobs s) = queued_cb nf (S np) ph1 ++ queued_cb nf (S (S np)) ph2 \/
  cb_jobs nf (jobs s) = queued_cb nf (S (S np)) ph2 ++ queued_cb nf (S np) ph1.
Proof.
  intros Hc.
  destruct (core_slot1 Hc) as (_ & _ & J1). destruct (core_slot2 Hc) as (_ & _ & J2).
  pose proof (cb_jobs_split nf (S np) (S (S np)) (jobs s)) as H.
  rewrite J1, J2, !cb_jobs_phase in H. apply H.
  - lia.
  - eapply Forall_impl; [exact (core_jobs Hc)|]. by intros j [_ ?].
  - apply queued_cb_length.
  - apply queued_cb_length.
Qed.

(** Once a listener is ahead it stays ahead, whatever happens to the
    queue, as long as the queue only loses its head and grows at the
    end. *)
Lemma lead_of_step nf dA dB phA phB arr l phA' phB' arr' l' :
  dA <> dB ->
  lead_of nf dA dB phA phB arr l ->
  cb_jobs nf l' = queued_cb nf dA phA' ++ queued_cb nf dB phB' \/
  cb_jobs nf l' = queued_cb nf dB phB' ++ queued_cb nf dA phA' ->
  phase_state phA' = phase_state phA ->
  (arr' = arr /\ ran phA' = ran phA /\ ran phB' = ran phB /\
   exists extra, cb_jobs nf l' = cb_jobs nf l ++ extra) \/
  (exists j rest,
      l = j :: rest /\ j_handler j = Some (HAllCb nf) /\
      arr' = arr ++ [j_arg j] /\
      ((phA = PQueued (j_arg j) /\ phA' = PRan (j_arg j) /\ phB' = phB /\
        j_derived j = dA) \/
       (phB = PQueued (j_arg j) /\ phB' = PRan (j_arg j) /\ phA' = phA /\
        j_derived j = dB))) ->
  lead_of nf dA dB phA' phB' arr' l'.
Proof.
  intros Hne (Harr & Hcb & Hfirst) Hperm Hst
    [(-> & R1 & R2 & extra & Hx)|(j & rest & -> & Hh & -> & Hph)].
  - (* nothing of the call ran *)
    assert (phA' = phA) as ->.
    { destruct phA; try done; destruct phA'; cbn in Hst, R1; try done; congruence. }
    split; [by rewrite R2|]. split; [|destruct phA; try done; by rewrite R2].
    destruct (queued_cb nf dB phB') as [|j2 l2] eqn:Q2;
      [destruct Hperm as [->| ->]; by rewrite ?app_nil_r|].
    destruct (queued_cb nf dA phA) as [|j1 l1] eqn:Q1;
      [destruct Hperm as [->| ->]; by rewrite ?app_nil_r|].
    destruct Hperm as [->|Hperm]; [done|]. exfalso.
    rewrite Hcb, Hperm in Hx.
    destruct phA; cbn in Q1; try done. destruct phB'; cbn in Q2; try done.
    inversion Q1; inversion Q2; subst. cbn in Hx. by inversion Hx.
  - (* a listener of the call ran *)
    assert (Hjhead : cb_jobs nf (j :: rest) = j :: cb_jobs nf rest).
    { unfold cb_jobs. by rewrite filter_cons_True. }
    rewrite Hjhead in Hcb.
    destruct phA; try done.
    + (* the leading listener is queued: it is the one that ran *)
      cbn in Hcb. injection Hcb as Hjeq Hrest.
      destruct Hph as [(E1 & -> & -> & _)|(_ & _ & _ & Hd)];
        [|rewrite Hjeq in Hd; cbn in Hd; congruence].
      cbn in Hfirst, Harr. rewrite Hfirst in Harr. subst arr.
      split; [by rewrite Hfirst|]. split; [|done].
      destruct Hperm as [->| ->]; by rewrite ?app_nil_r.
    + (* the leading listener has run already: the other one ran *)
      cbn in Hcb.
      destruct Hph as [(E1 & _)|(E2 & -> & -> & _)]; [done|]. subst phB.
      split; [by rewrite Harr, <- app_assoc|]. split; [|done].
      destruct Hperm as [->| ->]; done.
Qed.

Section Lead.
Variables (p1 p2 np nf na : nat).
Hypothesis Hp1 : (p1 < np)%nat.
Hypothesis Hp2 : (p2 < np)%nat.

Lemma lead_step first e s ph1 ph2 arr :
  inv p1 p2 np nf na ph1 ph2 arr s ->
  lead np nf first ph1 ph2 arr s ->
  exists ph1' ph2' arr',
    inv p1 p2 np nf na ph1' ph2' arr' (step e s) /\
    lead np nf first ph1' ph2' arr' (step e s).
Proof.
  intros Hinv Hlead.
  destruct (inv_step _ _ _ _ _ Hp1 Hp2 e _ _ _ _ Hinv)
    as (ph1' & ph2' & arr' & Hinv' & Hcase).
  exists ph1', ph2', arr'. split; [done|].
  pose proof (core_cb_jobs _ _ _ _ _ _ _ _ _ (proj1 Hinv')) as Hperm.
  pose proof (inv_phase1 _ _ _ _ _ _ _ _ _ Hinv) as S1.
  pose proof (inv_phase1 _ _ _ _ _ _ _ _ _ Hinv') as S1'.
  pose proof (inv_phase2 _ _ _ _ _ _ _ _ _ Hinv) as S2.
  pose proof (inv_phase2 _ _ _ _ _ _ _ _ _ Hinv') as S2'.
  assert (Hquiet : e <> Tick \/ (forall j rest, jobs s = j :: rest ->
                                   j_handler j <> Some (HAllCb nf)) ->
            exists extra, cb_jobs nf (jobs (step e s)) = cb_jobs nf (jobs s) ++ extra).
  { intros Hq. destruct (step_jobs e s) as [extra Hx]. rewrite Hx, cb_jobs_app.
    exists (cb_jobs nf extra). f_equal.
    destruct e; try done. destruct (jobs s) as [|j rest] eqn:Hj; [done|].
    destruct Hq as [?|Hq]; [done|].
    cbn. unfold cb_jobs. rewrite decide_False; [done|]. by apply (Hq j rest). }
  destruct first; cbn in Hlead |- *.
  - eapply lead_of_step; [lia|exact Hlead|exact Hperm| |].
    + destruct Hlead as (_ & _ & H). destruct ph1; try done;
        rewrite (step_stable e _ _ _ S1) in S1' by done; congruence.
    + destruct Hcase as [(-> & R1 & R2 & Hhead)|(-> & j & rest & Hj & Hh & -> & _ & Hph)].
      * left. repeat split; try done. apply Hquiet.
        destruct e; eauto.
      * right. exists j, rest. by repeat split.
  - eapply lead_of_step; [lia|exact Hlead|by destruct Hperm; eauto| |].
    + destruct Hlead as (_ & _ & H). destruct ph2; try done;
        rewrite (step_stable e _ _ _ S2) in S2' by done; congruence.
    + destruct Hcase as [(-> & R1 & R2 & Hhead)|(-> & j & rest & Hj & Hh & -> & _ & Hph)].
      * left. repeat split; try done. apply Hquiet.
        destruct e; eauto.
      * right. exists j, rest. repeat split; try done.
        destruct Hph as [?|?]; [by right|by left].
Qed.

Lemma lead_run first es s ph1 ph2 arr :
  inv p1 p2 np nf na ph1 ph2 arr s ->
  lead np nf first ph1 ph2 arr s ->
  exists ph1' ph2' arr',
    inv p1 p2 np nf na ph1' ph2' arr' (run es s) /\
    lead np nf first ph1' ph2' arr' (run es s).
Proof.
  revert s ph1 ph2 arr. induction es as [|e es IH]; intros s ph1 ph2 arr Hinv Hlead.
  - by exists ph1, ph2, arr.
  - destruct (lead_step first e _ _ _ _ Hinv Hlead) as (a & b & c & Hi & Hl).
    cbn. by eapply IH.
Qed.

(** One input fulfilled with the other one still pending: the listener
    of the fulfilled input is ahead. *)
Lemma lead_enter1 ph1 ph2 arr s v1 :
  inv p1 p2 np nf na ph1 ph2 arr s ->
  state_of s p1 = Some (Fulfilled v1) ->
  state_of s p2 = Some Pending ->
  lead np nf true ph1 ph2 arr s.
Proof.
  intros Hinv H1 H2.
  rewrite (inv_phase1 _ _ _ _ _ _ _ _ _ Hinv) in H1.
  rewrite (inv_phase2 _ _ _ _ _ _ _ _ _ Hinv) in H2.
  assert (ph2 = PWait) as -> by (apply phase_state_pending; congruence).
  pose proof (core_cb_jobs _ _ _ _ _ _ _ _ _ (proj1 Hinv)) as Hperm.
  pose proof (core_arr (proj1 Hinv)) as Ha. cbn in Hperm, Ha.
  rewrite !app_nil_r in *. unfold lead, lead_of. cbn. rewrite !app_nil_r.
  split; [by destruct Ha|]. split; [by destruct Hperm|].
  by destruct ph1.
Qed.

Lemma lead_enter2 ph1 ph2 arr s v2 :
  inv p1 p2 np nf na ph1 ph2 arr s ->
  state_of s p1 = Some Pending ->
  state_of s p2 = Some (Fulfilled v2) ->
  lead np nf false ph1 ph2 arr s.
Proof.
  intros Hinv H1 H2.
  rewrite (inv_phase1 _ _ _ _ _ _ _ _ _ Hinv) in H1.
  rewrite (inv_phase2 _ _ _ _ _ _ _ _ _ Hinv) in H2.
  assert (ph1 = PWait) as -> by (apply phase_state_pending; congruence).
  pose proof (core_cb_jobs _ _ _ _ _ _ _ _ _ (proj1 Hinv)) as Hperm.
  pose proof (core_arr (proj1 Hinv)) as Ha. cbn in Hperm, Ha.
  rewrite !app_nil_r in *. unfold lead, lead_of. cbn. rewrite !app_nil_r.
  split; [by destruct Ha|]. split; [by destruct Hperm|].
  by destruct ph2.
Qed.

(** With a listener ahead, both inputs fulfilled and nothing left in the
    queue, [result] holds the value of the leading input first. *)
Lemma lead_result first ph1 ph2 arr s v1 v2 :
  inv p1 p2 np nf na ph1 ph2 arr s ->
  lead np nf first ph1 ph2 arr s ->
  state_of s p1 = Some (Fulfilled v1) ->
  state_of s p2 = Some (Fulfilled v2) ->
  jobs s = [] ->
  state_of s np = Some (Fulfilled (VArray na)) /\
  heap s !! na = Some (if first then [v1; v2] else [v2; v1]).
Proof.
  intros Hinv Hlead H1 H2 Hj.
  destruct (inv_fulfilled_done _ _ _ _ _ _ _ _ _ _ _ Hinv H1 H2 Hj) as [Ho _].
  split; [done|].
  rewrite (inv_phase1 _ _ _ _ _ _ _ _ _ Hinv) in H1.
  rewrite (inv_phase2 _ _ _ _ _ _ _ _ _ Hinv) in H2.
  destruct Hinv as [Hc _].
  destruct (core_slot1 Hc) as (_ & _ & J1). destruct (core_slot2 Hc) as (_ & _ & J2).
  rewrite Hj in J1, J2. rewrite (core_heap Hc).
  destruct ph1; cbn in H1, J1; try done. destruct ph2; cbn in H2, J2; try done.
  destruct first; destruct Hlead as (-> & _); cbn; congruence.
Qed.

(** The same after draining the queue. *)
Lemma lead_drain first ph1 ph2 arr s v1 v2 :
  inv p1 p2 np nf na ph1 ph2 arr s ->
  lead np nf first ph1 ph2 arr s ->
  state_of s p1 = Some (Fulfilled v1) ->
  state_of s p2 = Some (Fulfilled v2) ->
  state_of (drain (work s) s) np = Some (Fulfilled (VArray na)) /\
  heap (drain (work s) s) !! na = Some (if first then [v1; v2] else [v2; v1]).
Proof.
  intros Hinv Hlead H1 H2.
  pose proof (drain_empty (work s) s (le_n _)) as Hj.
  destruct (drain_run (work s) s) as [k Hk]. rewrite Hk in *.
  destruct (lead_run first (replicate k Tick) _ _ _ _ Hinv Hlead)
    as (a & b & c & Hi & Hl).
  eapply lead_result; [exact Hi|exact Hl| | |done]; by apply run_stable.
Qed.
End Lead.

(** ** Every schedule after the call *)

Lemma started_eq p1 p2 s :
  started p1 p2 s =
  fst (then_ (length (promises s)) (Some HConsoleLog) None (called p1 p2 s)).
Proof.
  unfold started, called, state_after, main, bind, then_arg.
  rewrite all_unfold. cbn [fst]. by destruct (then_ _ _ None _).
Qed.

Lemma called_length p1 p2 s :
  length (promises (called p1 p2 s)) = S (S (S (length (promises s)))).
Proof.
  unfold called, state_after. rewrite all_unfold. cbn [fst].
  rewrite !then_length. cbn. rewrite length_app. cbn. lia.
Qed.

Lemma called_console p1 p2 s : console (called p1 p2 s) = console s.
Proof.
  unfold called, state_after. rewrite all_unfold. cbn [fst].
  by rewrite !then_console.
Qed.

Lemma called_then_calls p1 p2 s :
  then_calls (called p1 p2 s) =
  then_calls s ++ [(p1, Some (HAllCb (length (frames s))), None);
                   (p2, Some (HAllCb (length (frames s))), None)].
Proof.
  unfold called, state_after. rewrite all_unfold. cbn [fst].
  rewrite !then_then_calls. cbn. by rewrite <- app_assoc.
Qed.

Lemma called_loggers p1 p2 s : (loggers (called p1 p2 s) <= loggers s)%nat.
Proof.
  unfold called, state_after. rewrite all_unfold. cbn [fst]. unfold loggers.
  etrans; [apply potential_then, logs_le|].
  etrans; [apply Nat.add_le_mono_r, potential_then, logs_le|].
  rewrite potential_entered. cbn. lia.
Qed.

(** ** Well-formedness is kept *)

(** Well-formedness against given bounds. *)
Lemma wf_at_iff s :
  wf s = true <-> wf_at (length (promises s)) (length (frames s)) (length (heap s)) s.
Proof.
  unfold wf, wf_at. rewrite !andb_true_iff, !forallb_forall.
  split.
  - intros [[Hc Hj] Hf]. split; [|split].
    + intros q c Hq. apply Forall_forall. intros r Hr.
      assert (Hin : In c (promises s)) by (apply list_elem_of_In, list_elem_of_lookup; eauto).
      specialize (Hc c Hin). rewrite forallb_forall in Hc.
      apply Hc. by apply list_elem_of_In.
    + apply Forall_forall. intros j Hin. apply Hj. by apply list_elem_of_In.
    + apply Forall_forall. intros fr Hin. apply Hf. by apply list_elem_of_In.
  - intros (Hc & Hj & Hf). split; [split|].
    + intros c Hin. apply forallb_forall. intros r Hr.
      apply list_elem_of_In, list_elem_of_lookup in Hin. destruct Hin as [q Hq].
      specialize (Hc q c Hq). rewrite Forall_forall in Hc.
      apply Hc. by apply list_elem_of_In.
    + intros j Hin. rewrite Forall_forall in Hj. apply Hj. by apply list_elem_of_In.
    + intros fr Hin. rewrite Forall_forall in Hf. apply Hf. by apply list_elem_of_In.
Qed.

Lemma handler_wf_mono nf nf' h :
  (nf <= nf')%nat -> handler_wf nf h = true -> handler_wf nf' h = true.
Proof.
  intros Hle. destruct h as [[f|]|]; try done.
  unfold handler_wf. rewrite !Nat.ltb_lt. lia.
Qed.

Lemma reaction_wf_mono np nf np' nf' r :
  (np <= np')%nat -> (nf <= nf')%nat ->
  reaction_wf np nf r = true -> reaction_wf np' nf' r = true.
Proof.
  intros H1 H2. unfold reaction_wf. rewrite !andb_true_iff, !Nat.ltb_lt.
  intros [[Ha Hb] Hc]. repeat split; eauto using handler_wf_mono. lia.
Qed.

Lemma job_wf_mono np nf np' nf' j :
  (np <= np')%nat -> (nf <= nf')%nat ->
  job_wf np nf j = true -> job_wf np' nf' j = true.
Proof.
  intros H1 H2. unfold job_wf. rewrite !andb_true_iff, !Nat.ltb_lt.
  intros [Ha Hb]. split; eauto using handler_wf_mono. lia.
Qed.

Lemma frame_wf_mono np na np' na' fr :
  (np <= np')%nat -> (na <= na')%nat ->
  frame_wf np na fr = true -> frame_wf np' na' fr = true.
Proof.
  intros H1 H2. unfold frame_wf. rewrite !andb_true_iff, !Nat.ltb_lt. lia.
Qed.

Lemma wf_at_mono np nf na np' nf' na' s :
  (np <= np')%nat -> (nf <= nf')%nat -> (na <= na')%nat ->
  wf_at np nf na s -> wf_at np' nf' na' s.
Proof.
  intros H1 H2 H3 (Hc & Hj & Hf). split; [|split].
  - intros q c Hq. eapply Forall_impl; [exact (Hc q c Hq)|].
    intros r. by apply reaction_wf_mono.
  - eapply Forall_impl; [exact Hj|]. intros j. by apply job_wf_mono.
  - eapply Forall_impl; [exact Hf|]. intros fr. by apply frame_wf_mono.
Qed.

Lemma reaction_job_wf np nf k v r :
  reaction_wf np nf r = true -> job_wf np nf (reaction_job k v r) = true.
Proof.
  unfold reaction_wf, job_wf. rewrite !andb_true_iff.
  intros [[Ha Hb] Hc]. by destruct k.
Qed.

Lemma wf_at_settle np nf na q k v s :
  wf_at np nf na s -> wf_at np nf na (settle q k v s).
Proof.
  intros (Hc & Hj & Hf).
  destruct (settle_cases q k v s) as [(ow & rs & Hq & ->)|[_ ->]]; [|done].
  assert (Hlt : (q < length (promises s))%nat) by (by eapply lookup_lt_Some).
  split; [|split]; cbn; [| |done].
  - intros q' c. rewrite list_lookup_insert by done. case_decide.
    + intros [= <-]. constructor.
    + apply Hc.
  - apply Forall_app. split; [done|]. apply Forall_fmap.
    eapply Forall_impl; [exact (Hc _ _ Hq)|]. intros r. apply reaction_job_wf.
Qed.

Lemma wf_at_then np nf na p onF onR s :
  wf_at np nf na s -> (length (promises s) < np)%nat ->
  handler_wf nf onF = true -> handler_wf nf onR = true ->
  wf_at np nf na (fst (then_ p onF onR s)).
Proof.
  intros (Hc & Hj & Hf) Hlt HF HR.
  assert (Hr : reaction_wf np nf (Reaction onF onR (length (promises s))) = true).
  { unfold reaction_wf. cbn. rewrite HF, HR. by apply Nat.ltb_lt. }
  split; [|split].
  - by apply then_recs.
  - apply then_jobs; [done|]. intros k v. by apply reaction_job_wf.
  - by rewrite then_frames.
Qed.

Lemma wf_at_callback np nf na f x s :
  wf_at np nf na s -> wf_at np nf na (fst (all_callback f x s)).
Proof.
  intros Hwf. unfold all_callback.
  destruct (frames s !! f) as [[c a out]|] eqn:Hfr; [|done].
  set (s1 := set_heap _ _).
  assert (H1 : wf_at np nf na s1).
  { destruct Hwf as (Hc & Hj & Hf). split; [|split]; cbn; try done.
    apply Forall_insert; [done|].
    exact (Forall_lookup_1 _ _ _ _ Hf Hfr). }
  destruct (2 <=? c + 1); cbn [fst]; [|done]. by apply wf_at_settle.
Qed.

Lemma wf_at_step np nf na e s : wf_at np nf na s -> wf_at np nf na (step e s).
Proof.
  intros Hwf. destruct e; cbn.
  - unfold env_settle. repeat case_match; try done. by apply wf_at_settle.
  - unfold env_settle. repeat case_match; try done. by apply wf_at_settle.
  - destruct (jobs s) as [|j rest] eqn:Hj; [done|].
    assert (H1 : wf_at np nf na (set_jobs rest s)).
    { destruct Hwf as (Hc & Hjs & Hf). split; [|split]; cbn; try done.
      rewrite Hj in Hjs. by inversion Hjs. }
    unfold run_job. destruct (j_handler j) as [[f|]|]; cbn [call_handler].
    + pose proof (all_callback_normal f (j_arg j) (set_jobs rest s)) as Hn.
      pose proof (wf_at_callback _ _ _ f (j_arg j) _ H1) as H2.
      destruct (all_callback f (j_arg j) (set_jobs rest s)) as [s' r].
      cbn in Hn, H2. subst r. by apply wf_at_settle.
    + apply wf_at_settle. destruct H1 as (Hc & Hjs & Hf). by split.
    + by apply wf_at_settle.
Qed.

(** Events allocate nothing. *)
Lemma settle_sizes q k v s :
  length (promises (settle q k v s)) = length (promises s) /\
  length (frames (settle q k v s)) = length (frames s) /\
  length (heap (settle q k v s)) = length (heap s).
Proof. by rewrite settle_length, settle_frames, settle_heap. Qed.

Lemma all_callback_sizes f x s :
  length (promises (fst (all_callback f x s))) = length (promises s) /\
  length (frames (fst (all_callback f x s))) = length (frames s) /\
  length (heap (fst (all_callback f x s))) = length (heap s).
Proof.
  unfold all_callback. destruct (frames s !! f) as [[c a out]|]; [|done].
  destruct (2 <=? c + 1); cbn [fst];
    rewrite ?settle_length, ?settle_frames, ?settle_heap; cbn;
    by rewrite length_insert, length_alter.
Qed.

Lemma step_sizes e s :
  length (promises (step e s)) = length (promises s) /\
  length (frames (step e s)) = length (frames s) /\
  length (heap (step e s)) = length (heap s).
Proof.
  destruct e; cbn.
  - unfold env_settle. repeat case_match; try done; apply settle_sizes.
  - unfold env_settle. repeat case_match; try done; apply settle_sizes.
  - destruct (jobs s) as [|j rest]; [done|].
    unfold run_job. destruct (j_handler j) as [[f|]|]; cbn [call_handler].
    + pose proof (all_callback_normal f (j_arg j) (set_jobs rest s)) as Hn.
      pose proof (all_callback_sizes f (j_arg j) (set_jobs rest s)) as H2.
      destruct (all_callback f (j_arg j) (set_jobs rest s)) as [s' r].
      cbn in Hn, H2. subst r.
      by rewrite settle_length, settle_frames, settle_heap.
    + by rewrite settle_length, settle_frames, settle_heap.
    + by rewrite settle_length, settle_frames, settle_heap.
Qed.

(** Every event keeps a state well-formed. *)
Lemma wf_step e s : wf s = true -> wf (step e s) = true.
Proof.
  rewrite !wf_at_iff. intros H.
  destruct (step_sizes e s) as (-> & -> & ->). by apply wf_at_step.
Qed.

Lemma wf_run es s : wf s = true -> wf (run es s) = true.
Proof.
  revert s. induction es as [|e es IH]; intros s H; [done|].
  cbn. by apply IH, wf_step.
Qed.

(** So does a registration of a listener whose frame exists. *)
Lemma wf_then p onF onR s :
  wf s = true ->
  handler_wf (length (frames s)) onF = true ->
  handler_wf (length (frames s)) onR = true ->
  wf (fst (then_ p onF onR s)) = true.
Proof.
  rewrite !wf_at_iff. intros H HF HR.
  rewrite then_length, then_frames, then_heap.
  apply wf_at_then; [|lia|done|done].
  eapply wf_at_mono; [| | |exact H]; lia.
Qed.

(** So does a call of [all] on two handles, and the last line of the
    file: the theorems below apply again to the states they lead to. *)
Lemma wf_called p1 p2 s : wf s = true -> wf (called p1 p2 s) = true.
Proof.
  intros H. unfold called, state_after. rewrite all_unfold. cbn [fst].
  assert (He : wf (entered s) = true).
  { apply wf_at_iff. apply wf_at_iff in H. destruct H as (Hc & Hj & Hf).
    cbn. rewrite !length_app. cbn. split; [|split]; cbn.
    - intros q c [Hq|[_ Hq]]%lookup_app_Some.
      + eapply Forall_impl; [exact (Hc q c Hq)|]. intros r.
        apply reaction_wf_mono; lia.
      + destruct (q - length (promises s))%nat; cbn in Hq; [|done].
        inversion Hq. constructor.
    - eapply Forall_impl; [exact Hj|]. intros j. apply job_wf_mono; lia.
    - apply Forall_app. split.
      + eapply Forall_impl; [exact Hf|]. intros fr. apply frame_wf_mono; lia.
      + constructor; [|constructor]. unfold frame_wf. cbn.
        apply andb_true_iff. split; apply Nat.ltb_lt; lia. }
  assert (Hh : handler_wf (length (frames (entered s)))
                 (Some (HAllCb (length (frames s)))) = true).
  { cbn. rewrite length_app. cbn. apply Nat.ltb_lt. lia. }
  apply wf_then; [apply wf_then| |]; rewrite ?then_frames; done.
Qed.

Lemma wf_started p1 p2 s : wf s = true -> wf (started p1 p2 s) = true.
Proof.
  intros H. rewrite started_eq. apply wf_then; [by apply wf_called|done|done].
Qed.

Lemma wf_handles sts : wf (handles sts) = true.
Proof.
  apply wf_at_iff. split; [|split]; cbn; [|constructor|constructor].
  intros q c Hq.
  change (map ?f sts) with (f <$> sts) in Hq. rewrite list_lookup_fmap in Hq.
  destruct (sts !! q); inversion Hq. constructor.
Qed.

(** ** Schedules from the two starting points *)

Section Schedules.
Variables (s0 : state) (p1 p2 : nat) (st1 st2 : pstate).
Hypothesis Hwf : wf s0 = true.
Hypothesis Hst1 : state_of s0 p1 = Some st1.
Hypothesis Hst2 : state_of s0 p2 = Some st2.

Local Abbreviation np := (length (promises s0)).
Local Abbreviation nf := (length (frames s0)).
Local Abbreviation na := (length (heap s0)).

Lemma started_inv :
  inv p1 p2 np nf na (initial_phase st1) (initial_phase st2) []
    (started p1 p2 s0).
Proof.
  rewrite started_eq.
  apply (inv_then p1 p2 np nf na (handle_lt s0 p1 st1 Hst1) (handle_lt s0 p2 st2 Hst2));
    [by apply all_inv| |done|done].
  rewrite called_length. lia.
Qed.

(** The invariant after any schedule, from either starting point. *)
Lemma reach_called es :
  exists ph1 ph2 arr, inv p1 p2 np nf na ph1 ph2 arr (run es (called p1 p2 s0)).
Proof.
  eapply inv_run; [by eapply handle_lt|by eapply handle_lt|].
  by apply all_inv.
Qed.

Lemma reach_started es :
  exists ph1 ph2 arr, inv p1 p2 np nf na ph1 ph2 arr (run es (started p1 p2 s0)).
Proof.
  eapply inv_run; [by eapply handle_lt|by eapply handle_lt|].
  by apply started_inv.
Qed.
End Schedules.

(** [then_] on a fulfilled promise queues exactly one job. *)
Lemma then_fulfilled_jobs p onF onR s v :
  state_of s p = Some (Fulfilled v) ->
  jobs (fst (then_ p onF onR s)) =
  jobs s ++ [Job onF KFulfill v (length (promises s))].
Proof.
  unfold state_of, then_.
  destruct (promises s !! p) as [[ow [|v'|e] rs]|]; cbn; try done.
  by intros [= ->].
Qed.

(** Both inputs fulfilled at the call: the two listener jobs are queued
    in registration order, so the first listener is ahead. *)
Lemma called_lead s0 p1 p2 v1 v2 :
  wf s0 = true ->
  state_of s0 p1 = Some (Fulfilled v1) ->
  state_of s0 p2 = Some (Fulfilled v2) ->
  lead (length (promises s0)) (length (frames s0)) true (PQueued v1) (PQueued v2) []
    (called p1 p2 s0).
Proof.
  intros Hwf H1 H2. split; [done|]. split; [|done].
  unfold called, state_after. rewrite all_unfold. cbn [fst].
  set (cb := Some (HAllCb (length (frames s0)))).
  assert (Hb1 : state_of (entered s0) p1 = Some (Fulfilled v1)).
  { unfold state_of in *. cbn. rewrite lookup_app_l; [done|].
    destruct (promises s0 !! p1) eqn:E; [by eapply lookup_lt_Some|done]. }
  assert (Hb2 : state_of (fst (then_ p1 cb None (entered s0))) p2 = Some (Fulfilled v2)).
  { apply then_state_of. unfold state_of in *. cbn. rewrite lookup_app_l; [done|].
    destruct (promises s0 !! p2) eqn:E; [by eapply lookup_lt_Some|done]. }
  rewrite (then_fulfilled_jobs _ _ _ _ _ Hb2), (then_fulfilled_jobs _ _ _ _ _ Hb1).
  rewrite then_length. cbn [jobs entered set_frames set_heap set_promises promises].
  rewrite length_app. cbn [length].
  rewrite !cb_jobs_app.
  assert (Hnone : cb_jobs (length (frames s0)) (jobs s0) = []).
  { apply filter_none. eapply Forall_impl; [exact (wf_jobs s0 Hwf)|]. by intros j [_ ?]. }
  rewrite Hnone. unfold cb_jobs, cb. cbn.
  rewrite !decide_True by done.
  by replace (length (promises s0) + 1)%nat with (S (length (promises s0))) by lia.
Qed.

(** With both inputs fulfilled, draining the queue fulfils the output
    promise with [result], which holds the two values. *)
Lemma drain_fulfils p1 p2 np nf na ph1 ph2 arr s v1 v2 :
  (p1 < np)%nat -> (p2 < np)%nat ->
  inv p1 p2 np nf na ph1 ph2 arr s ->
  state_of s p1 = Some (Fulfilled v1) ->
  state_of s p2 = Some (Fulfilled v2) ->
  state_of (drain (work s) s) np = Some (Fulfilled (VArray na)) /\
  (heap (drain (work s) s) !! na = Some [v1; v2] \/
   heap (drain (work s) s) !! na = Some [v2; v1]).
Proof.
  intros Hp1 Hp2 Hinv H1 H2.
  pose proof (drain_empty (work s) s (le_n _)) as Hj.
  destruct (drain_run (work s) s) as [k Hk]. rewrite Hk in *.
  destruct (inv_run p1 p2 np nf na Hp1 Hp2 _ _ _ _ (replicate k Tick) Hinv)
    as (a & b & c & Hinv').
  eapply inv_fulfilled_done; [exact Hinv'| | |done].
  - by apply run_stable.
  - by apply run_stable.
Qed.

(** An input that rejected keeps the output promise pending under
    every further schedule. *)
Lemma rejected_keeps_pending p1 p2 np nf na ph1 ph2 arr s e es :
  (p1 < np)%nat -> (p2 < np)%nat ->
  inv p1 p2 np nf na ph1 ph2 arr s ->
  state_of s p1 = Some (Rejected e) \/ state_of s p2 = Some (Rejected e) ->
  state_of (run es s) np = Some Pending.
Proof.
  intros Hp1 Hp2 Hinv Hrej.
  destruct (inv_run p1 p2 np nf na Hp1 Hp2 _ _ _ _ es Hinv) as (a & b & c & Hinv').
  eapply (inv_rejected_pending p1 p2 np nf na Hp1 Hp2); [exact Hinv'|].
  destruct Hrej as [H|H]; [left|right]; by apply run_stable.
Qed.

(** The arrow function of [all] rejects nothing. *)
Lemma all_callback_no_reject f x s q e :
  state_of (fst (all_callback f x s)) q = Some (Rejected e) ->
  state_of s q = Some (Rejected e).
Proof.
  unfold all_callback.
  destruct (frames s !! f) as [[c a out]|]; [|done].
  destruct (2 <=? c + 1); cbn [fst]; [|done].
  set (s1 := set_heap _ _).
  change (state_of s q) with (state_of s1 q).
  destruct (settle_cases out KFulfill (VArray a) s1) as [(ow & rs & Hq & ->)|[_ ->]]; [|done].
  unfold state_of. cbn [promises set_jobs set_promises].
  destruct (decide (q = out)) as [->|Hne].
  - rewrite list_lookup_insert_eq by (by eapply lookup_lt_Some). done.
  - by rewrite list_lookup_insert_ne.
Qed.

(** The executor settles nothing: the output promise is still pending
    when it returns or throws. *)
Lemma executor_keeps_pending x1 x2 s s1 r :
  all_executor x1 x2 (length (promises s)) (allocated s) = (s1, r) ->
  exists rs, promises s1 !! length (promises s) = Some (Cell Internal Pending rs).
Proof.
  unfold all_executor, bind, enter_executor, then_arg, ret.
  set (sb := set_frames _ _).
  assert (Hb : promises sb !! length (promises s) = Some (Cell Internal Pending [])).
  { cbn. by rewrite list_lookup_middle. }
  destruct x1 as [q1|v1].
  - destruct (then_ q1 _ None sb) as [sc d1] eqn:E1.
    destruct (then_lookup_old q1 (Some (HAllCb (length (frames (allocated s))))) None
                _ _ _ _ _ Hb) as [rs1 H1].
    rewrite E1 in H1. cbn [fst] in H1.
    destruct x2 as [q2|v2].
    + destruct (then_ q2 _ None sc) as [sd d2] eqn:E2.
      destruct (then_lookup_old q2 (Some (HAllCb (length (frames (allocated s))))) None
                  _ _ _ _ _ H1) as [rs2 H2].
      rewrite E2 in H2. cbn [fst] in H2.
      intros [= <- _]. eauto.
    + intros [= <- _]. eauto.
  - intros [= <- _]. eauto.
Qed.

(** What the executor throws becomes the rejection of the output
    promise, and [all] returns normally. *)
Lemma executor_failure_rejects s x1 x2 s1 e :
  all_executor x1 x2 (length (promises s)) (allocated s) = (s1, Throw e) ->
  snd (all x1 x2 s) = Normal (length (promises s)) /\
  state_of (state_after (all x1 x2) s) (length (promises s)) = Some (Rejected e).
Proof.
  intros Hex.
  destruct (executor_keeps_pending _ _ _ _ _ Hex) as [rs Hpen].
  unfold state_after, all, new_promise. fold (allocated s). rewrite Hex. cbn [fst snd].
  split; [done|].
  unfold settle, state_of. rewrite Hpen. cbn.
  rewrite list_lookup_insert_eq; [done|]. by eapply lookup_lt_Some.
Qed.

(** ** Any two arguments *)

Lemma main_state x1 x2 s :
  state_after (main x1 x2) s =
  fst (then_ (length (promises s)) (Some HConsoleLog) None (state_after (all x1 x2) s)).
Proof.
  unfold state_after, main, bind, then_arg.
  assert (Hn : snd (all x1 x2 s) = Normal (length (promises s))).
  { unfold all, new_promise. by destruct (all_executor _ _ _ _) as [s1 [[]|e]]. }
  destruct (all x1 x2 s) as [s' r]. cbn in Hn. subst r. cbn [fst].
  by destruct (then_ _ _ None s').
Qed.

(** The executor, and so [all], installs no [console.log] listener and
    writes nothing. *)
Lemma executor_loggers x1 x2 o s s1 r :
  all_executor x1 x2 o s = (s1, r) ->
  (loggers s1 <= loggers s)%nat /\ console s1 = console s.
Proof.
  unfold all_executor, bind, enter_executor, then_arg, ret, throw.
  set (sb := set_frames _ _).
  assert (Hb : loggers sb = loggers s /\ console sb = console s) by done.
  assert (Hthen : forall p t,
            (loggers (fst (then_ p (Some (HAllCb (length (frames s)))) None t)) <=
             loggers t)%nat).
  { intros p t. unfold loggers. etrans; [apply potential_then, logs_le|]. cbn. lia. }
  destruct x1 as [q1|v1].
  - pose proof (Hthen q1 sb) as L1. pose proof (then_console q1 (Some (HAllCb (length (frames s)))) None sb) as C1.
    destruct (then_ q1 _ None sb) as [sc d1]. cbn [fst] in L1, C1.
    destruct x2 as [q2|v2].
    + pose proof (Hthen q2 sc) as L2. pose proof (then_console q2 (Some (HAllCb (length (frames s)))) None sc) as C2.
      destruct (then_ q2 _ None sc) as [sd d2]. cbn [fst] in L2, C2.
      intros [= <- _]. destruct Hb as [Hb1 Hb2]. split; [lia|congruence].
    + intros [= <- _]. destruct Hb as [Hb1 Hb2]. split; [lia|congruence].
  - intros [= <- _]. destruct Hb as [Hb1 Hb2]. split; [lia|congruence].
Qed.

Lemma main_loggers x1 x2 s :
  (loggers (state_after (main x1 x2) s) <= loggers s + 1)%nat /\
  console (state_after (main x1 x2) s) = console s.
Proof.
  rewrite main_state, then_console.
  assert (Hall : (loggers (state_after (all x1 x2) s) <= loggers s)%nat /\
                 console (state_after (all x1 x2) s) = console s).
  { unfold state_after, all, new_promise. fold (allocated s).
    destruct (all_executor x1 x2 (length (promises s)) (allocated s)) as [s1 r] eqn:E.
    destruct (executor_loggers _ _ _ _ _ _ E) as [L C].
    assert (La : loggers (allocated s) = loggers s).
    { unfold loggers, potential. cbn. rewrite sum_list_with_app. cbn. lia. }
    destruct r as [[]|e]; cbn [fst].
    - split; [lia|done].
    - rewrite settle_console. split; [|done].
      etrans; [apply potential_settle, logs_le|]. fold (loggers s1). lia. }
  destruct Hall as [L C]. split; [|done].
  unfold loggers in *. etrans; [apply potential_then, logs_le|]. cbn. lia.
Qed.

(** Either both arguments are handles, or the output promise is rejected
    when the call returns. *)
Lemma main_outcome s x1 x2 :
  arg_ok s x1 -> arg_ok s x2 ->
  (exists p1 p2 st1 st2,
      x1 = APromise p1 /\ x2 = APromise p2 /\
      state_of s p1 = Some st1 /\ state_of s p2 = Some st2) \/
  (exists e, state_of (state_after (main x1 x2) s) (length (promises s)) =
             Some (Rejected e)).
Proof.
  intros A1 A2.
  destruct x1 as [p1|v1], x2 as [p2|v2]; cbn in A1, A2.
  - left. destruct A1 as [st1 H1], A2 as [st2 H2]. by exists p1, p2, st1, st2.
  - right. exists (then_error v2). rewrite main_state. apply then_state_of.
    destruct (all_executor (APromise p1) (AValue v2) (length (promises s)) (allocated s))
      as [s1 r] eqn:E.
    assert (r = Throw (then_error v2)) as ->.
    { revert E. unfold all_executor, bind, enter_executor, then_arg, throw.
      destruct (then_ p1 _ None _). by intros [= _ <-]. }
    by destruct (executor_failure_rejects _ _ _ _ _ E).
  - right. exists (then_error v1). rewrite main_state. apply then_state_of.
    destruct (all_executor (AValue v1) (APromise p2) (length (promises s)) (allocated s))
      as [s1 r] eqn:E.
    assert (r = Throw (then_error v1)) as ->.
    { revert E. unfold all_executor, bind, enter_executor, then_arg, throw.
      by intros [= _ <-]. }
    by destruct (executor_failure_rejects _ _ _ _ _ E).
  - right. exists (then_error v1). rewrite main_state. apply then_state_of.
    destruct (all_executor (AValue v1) (AValue v2) (length (promises s)) (allocated s))
      as [s1 r] eqn:E.
    assert (r = Throw (then_error v1)) as ->.
    { revert E. unfold all_executor, bind, enter_executor, then_arg, throw.
      by intros [= _ <-]. }
    by destruct (executor_failure_rejects _ _ _ _ _ E).
Qed.

(** Inputs that are fulfilled at the call come out in input order. *)
Lemma fulfilled_at_call_in_input_order s0 p1 p2 v1 v2 es :
  wf s0 = true ->
  state_of s0 p1 = Some (Fulfilled v1) ->
  state_of s0 p2 = Some (Fulfilled v2) ->
  state_of (drain (work (run es (called p1 p2 s0))) (run es (called p1 p2 s0)))
           (length (promises s0)) = Some (Fulfilled (VArray (length (heap s0)))) /\
  heap (drain (work (run es (called p1 p2 s0))) (run es (called p1 p2 s0)))
    !! length (heap s0) = Some [v1; v2].
Proof.
  intros Hwf H1 H2.
  pose proof (handle_lt _ _ _ H1) as Hp1. pose proof (handle_lt _ _ _ H2) as Hp2.
  pose proof (all_inv s0 p1 p2 _ _ Hwf H1 H2) as Hinv. cbn in Hinv.
  pose proof (called_lead s0 p1 p2 v1 v2 Hwf H1 H2) as Hlead.
  destruct (lead_run p1 p2 _ _ _ Hp1 Hp2 true es _ _ _ _ Hinv Hlead)
    as (a & b & c & Hi & Hl).
  apply (lead_drain p1 p2 _ _ _ Hp1 Hp2 true _ _ _ _ v1 v2 Hi Hl).
  - apply run_stable; [|done]. by rewrite (inv_phase1 _ _ _ _ _ _ _ _ _ Hinv).
  - apply run_stable; [|done]. by rewrite (inv_phase2 _ _ _ _ _ _ _ _ _ Hinv).
Qed.

(** An input that is fulfilled while the other one is still pending
    comes out first. *)
Lemma earlier_input_first (first : bool) p1 p2 np nf na ph1 ph2 arr s es v1 v2 :
  (p1 < np)%nat -> (p2 < np)%nat ->
  inv p1 p2 np nf na ph1 ph2 arr s ->
  state_of s p1 = Some (if first then Fulfilled v1 else Pending) ->
  state_of s p2 = Some (if first then Pending else Fulfilled v2) ->
  state_of (run es s) p1 = Some (Fulfilled v1) ->
  state_of (run es s) p2 = Some (Fulfilled v2) ->
  heap (drain (work (run es s)) (run es s)) !! na =
  Some (if first then [v1; v2] else [v2; v1]).
Proof.
  intros Hp1 Hp2 Hinv H1 H2 H1' H2'.
  assert (Hlead : lead np nf first ph1 ph2 arr s).
  { destruct first; [by eapply (lead_enter1 p1 p2)|by eapply (lead_enter2 p1 p2)]. }
  destruct (lead_run p1 p2 _ _ _ Hp1 Hp2 first es _ _ _ _ Hinv Hlead)
    as (a & b & c & Hi & Hl).
  by destruct (lead_drain p1 p2 _ _ _ Hp1 Hp2 first _ _ _ _ v1 v2 Hi Hl H1' H2').
Qed.

(** ** The claims *)

(** C1, as stated, fails: with both inputs pending at the call and the
    second one fulfilled first, [result] holds the second input's value in
    slot 0. *)
Lemma result_follows_arrival_order :
  let s := run [EnvFulfill 1 (VNumber 20); EnvFulfill 0 (VNumber 10); Tick; Tick]
               (called 0 1 two_pending) in
  state_of s 0 = Some (Fulfilled (VNumber 10)) /\
  state_of s 1 = Some (Fulfilled (VNumber 20)) /\
  state_of s 2 = Some (Fulfilled (VArray 0)) /\
  heap s !! 0%nat = Some [VNumber 20; VNumber 10] /\
  heap s !! 0%nat <> Some [VNumber 10; VNumber 20].
Proof. vm_compute. by repeat split. Qed.

(** C1, amended: when both inputs fulfil, the output promise of [all]
    fulfils with [result], a sequence of length two that holds the two
    fulfilment values in the order in which the listeners ran.  Every
    listener of the call appends the value of its job at the end; the
    sequence is [v1; v2] or [v2; v1]; the input that is fulfilled while
    the other one is still pending comes first; and two inputs already
    fulfilled at the call come in input order. *)
Theorem all_collects_in_arrival_order s0 p1 p2 st1 st2 es :
  wf s0 = true ->
  state_of s0 p1 = Some st1 ->
  state_of s0 p2 = Some st2 ->
  let s := run es (called p1 p2 s0) in
  let o := length (promises s0) in
  let a := length (heap s0) in
  (forall j rest,
      jobs s = j :: rest -> j_handler j = Some (HAllCb (length (frames s0))) ->
      exists arr, heap s !! a = Some arr /\
                  heap (step Tick s) !! a = Some (arr ++ [j_arg j])) /\
  (forall v1 v2,
      state_of s p1 = Some (Fulfilled v1) ->
      state_of s p2 = Some (Fulfilled v2) ->
      state_of (drain (work s) s) o = Some (Fulfilled (VArray a)) /\
      (heap (drain (work s) s) !! a = Some [v1; v2] \/
       heap (drain (work s) s) !! a = Some [v2; v1])) /\
  (forall v1 v2 es',
      state_of s p1 = Some (Fulfilled v1) ->
      state_of s p2 = Some Pending ->
      state_of (run es' s) p2 = Some (Fulfilled v2) ->
      heap (drain (work (run es' s)) (run es' s)) !! a = Some [v1; v2]) /\
  (forall v1 v2 es',
      state_of s p1 = Some Pending ->
      state_of s p2 = Some (Fulfilled v2) ->
      state_of (run es' s) p1 = Some (Fulfilled v1) ->
      heap (drain (work (run es' s)) (run es' s)) !! a = Some [v2; v1]) /\
  (forall v1 v2,
      st1 = Fulfilled v1 -> st2 = Fulfilled v2 ->
      heap (drain (work s) s) !! a = Some [v1; v2]).
Proof.
  intros Hwf H1 H2 s o a.
  pose proof (handle_lt _ _ _ H1) as Hp1. pose proof (handle_lt _ _ _ H2) as Hp2.
  destruct (reach_called s0 p1 p2 st1 st2 Hwf H1 H2 es) as (ph1 & ph2 & arr & Hinv).
  split; [|split; [|split; [|split]]].
  - intros j rest Hj Hcb. exists arr.
    by eapply (inv_step_push p1 p2 _ _ _ Hp1 Hp2).
  - intros v1 v2 Hv1 Hv2. by eapply (drain_fulfils p1 p2).
  - intros v1 v2 es' Hv1 Hv2 Hv2'.
    apply (earlier_input_first true p1 p2 _ _ _ _ _ _ _ _ v1 v2 Hp1 Hp2 Hinv);
      try done. by apply run_stable.
  - intros v1 v2 es' Hv1 Hv2 Hv1'.
    apply (earlier_input_first false p1 p2 _ _ _ _ _ _ _ _ v1 v2 Hp1 Hp2 Hinv);
      try done. by apply run_stable.
  - intros v1 v2 -> ->.
    by destruct (fulfilled_at_call_in_input_order s0 p1 p2 v1 v2 es Hwf H1 H2).
Qed.

Lemma all_collects_in_arrival_order_witness :
  let s := run [EnvFulfill 1 (VNumber 20)] (called 0 1 two_pending) in
  heap (drain (work (run [EnvFulfill 0 (VNumber 10)] s))
              (run [EnvFulfill 0 (VNumber 10)] s)) !! 0%nat =
  Some [VNumber 20; VNumber 10].
Proof.
  exact (proj1 (proj2 (proj2 (proj2
           (all_collects_in_arrival_order two_pending 0 1 Pending Pending
              [EnvFulfill 1 (VNumber 20)] eq_refl eq_refl eq_refl))))
           (VNumber 10) (VNumber 20) [EnvFulfill 0 (VNumber 10)]
           eq_refl eq_refl eq_refl).
Defined.

(** C2, as stated, fails: the first input rejects with "boom", the second
    is fulfilled with 2, every job has run, and the output promise is
    still pending. *)
Lemma rejection_is_not_forwarded :
  let s := run [EnvReject 0 (VString "boom"); Tick; Tick; Tick]
               (called 0 1 pending_and_two) in
  state_of s 0 = Some (Rejected (VString "boom")) /\
  jobs s = [] /\
  state_of s 2 = Some Pending /\
  state_of s 2 <> Some (Rejected (VString "boom")).
Proof. vm_compute. by repeat split. Qed.

(** C2, amended: if an input of [all] rejects, the output promise does
    not settle: it is pending then and stays pending under every further
    schedule. *)
Theorem rejected_input_leaves_all_pending s0 p1 p2 st1 st2 es es' e :
  wf s0 = true ->
  state_of s0 p1 = Some st1 ->
  state_of s0 p2 = Some st2 ->
  state_of (run es (called p1 p2 s0)) p1 = Some (Rejected e) \/
  state_of (run es (called p1 p2 s0)) p2 = Some (Rejected e) ->
  state_of (run (es ++ es') (called p1 p2 s0)) (length (promises s0)) = Some Pending.
Proof.
  intros Hwf H1 H2 Hrej.
  pose proof (handle_lt _ _ _ H1) as Hp1. pose proof (handle_lt _ _ _ H2) as Hp2.
  destruct (reach_called s0 p1 p2 st1 st2 Hwf H1 H2 es) as (ph1 & ph2 & arr & Hinv).
  rewrite run_app. by eapply (rejected_keeps_pending p1 p2).
Qed.

Lemma rejected_input_leaves_all_pending_witness :
  state_of (run ([EnvReject 0 (VString "boom")] ++ [Tick; Tick; Tick])
                (called 0 1 pending_and_two)) 2 = Some Pending.
Proof.
  exact (rejected_input_leaves_all_pending pending_and_two 0 1
           Pending (Fulfilled (VNumber 2))
           [EnvReject 0 (VString "boom")] [Tick; Tick; Tick] (VString "boom")
           eq_refl eq_refl eq_refl (or_introl eq_refl)).
Defined.

(** C3: under every schedule after [all(x1, x2).then(console.log)],
    whatever the two arguments are, once the output promise has left the
    pending state no event changes its state, nor the contents of the
    array it was fulfilled with; the console gets at most one line more
    than the listeners already there could write; the arrow function of
    [all] never throws. *)
Theorem all_settles_once s0 x1 x2 es :
  wf s0 = true ->
  arg_ok s0 x1 ->
  arg_ok s0 x2 ->
  let s := run es (state_after (main x1 x2) s0) in
  let o := length (promises s0) in
  (forall e st,
      state_of s o = Some st -> st <> Pending ->
      state_of (step e s) o = Some st /\
      (forall a, st = Fulfilled (VArray a) -> heap (step e s) !! a = heap s !! a)) /\
  (length (console s) <= length (console s0) + loggers s0 + 1)%nat /\
  (forall x s', snd (all_callback (length (frames s0)) x s') = Normal VUndefined).
Proof.
  intros Hwf A1 A2 s o.
  split; [|split].
  - intros e st Hst Hne. split; [by apply step_stable|].
    intros a ->.
    destruct (main_outcome s0 x1 x2 A1 A2)
      as [(p1 & p2 & st1 & st2 & -> & -> & H1 & H2)|[err Herr]].
    + pose proof (handle_lt _ _ _ H1) as Hp1. pose proof (handle_lt _ _ _ H2) as Hp2.
      destruct (reach_started s0 p1 p2 st1 st2 Hwf H1 H2 es)
        as (ph1 & ph2 & arr & Hinv).
      unfold started in Hinv. subst s o.
      assert (a = length (heap s0)) as ->.
      { rewrite (inv_out_state _ _ _ _ _ _ _ _ _ Hinv) in Hst. unfold out_state in Hst.
        case_match; congruence. }
      eapply (inv_step_settled p1 p2 _ _ _ Hp1 Hp2); [exact Hinv|].
      rewrite Hst. congruence.
    + pose proof (run_stable es _ _ _ Herr) as Hr. subst s o.
      rewrite Hr in Hst by done. congruence.
  - pose proof (console_run es (state_after (main x1 x2) s0)) as Hc.
    destruct (main_loggers x1 x2 s0) as [Hl Hcon].
    rewrite Hcon in Hc. fold s in Hc. lia.
  - intros x s'. apply all_callback_normal.
Qed.

Lemma all_settles_once_witness :
  let s := run [EnvFulfill 0 (VNumber 7); Tick]
               (state_after (main (APromise 0) (AValue VUndefined)) two_pending) in
  (forall e st,
      state_of s 2 = Some st -> st <> Pending ->
      state_of (step e s) 2 = Some st /\
      (forall a, st = Fulfilled (VArray a) -> heap (step e s) !! a = heap s !! a)) /\
  (length (console s) <= 1)%nat /\
  (forall x s', snd (all_callback 0 x s') = Normal VUndefined).
Proof.
  exact (all_settles_once two_pending (APromise 0) (AValue VUndefined)
           [EnvFulfill 0 (VNumber 7); Tick] eq_refl (ex_intro _ Pending eq_refl) I).
Defined.

(** C4, as stated, fails: the claim speaks of every collection of
    inputs, and with fewer than two handles the output promise is settled
    inside the call.  Called without inputs, [all] returns a promise that
    is already rejected, with nothing queued; called with one pending
    handle only, it returns a rejected promise while that input is still
    pending, so that no input settlement decided it. *)
Lemma fewer_than_two_handles_settle_inside_the_call :
  let s := state_after (all (AValue VUndefined) (AValue VUndefined)) (handles []) in
  let t := state_after (all (APromise 0) (AValue VUndefined)) (handles [Pending]) in
  jobs s = [] /\
  state_of s 0 = Some (Rejected (then_error VUndefined)) /\
  state_of s 0 <> Some Pending /\
  state_of t 0 = Some Pending /\
  state_of t 1 = Some (Rejected (then_error VUndefined)) /\
  state_of t 1 <> Some Pending.
Proof. vm_compute. by repeat split. Qed.

(** C4, amended: on two promise handles, whatever the states of the
    inputs at the call, the output promise is pending when [all] returns;
    it leaves the pending state only in a later tick of the job queue
    that runs a listener of the call, and both inputs were settled
    (fulfilled) before that tick began. *)
Theorem all_settles_in_a_later_tick s0 p1 p2 st1 st2 :
  wf s0 = true ->
  state_of s0 p1 = Some st1 ->
  state_of s0 p2 = Some st2 ->
  let o := length (promises s0) in
  state_of (called p1 p2 s0) o = Some Pending /\
  (forall es e,
      let s := run es (called p1 p2 s0) in
      state_of s o = Some Pending ->
      state_of (step e s) o <> Some Pending ->
      e = Tick /\
      (exists j rest, jobs s = j :: rest /\
                      j_handler j = Some (HAllCb (length (frames s0)))) /\
      (exists v1 v2, state_of s p1 = Some (Fulfilled v1) /\
                     state_of s p2 = Some (Fulfilled v2))).
Proof.
  intros Hwf H1 H2 o. subst o.
  pose proof (handle_lt _ _ _ H1) as Hp1. pose proof (handle_lt _ _ _ H2) as Hp2.
  split.
  - pose proof (all_inv s0 p1 p2 st1 st2 Hwf H1 H2) as Hinv.
    by rewrite (inv_out_state _ _ _ _ _ _ _ _ _ Hinv).
  - intros es e s Hpen Hne.
    destruct (reach_called s0 p1 p2 st1 st2 Hwf H1 H2 es) as (ph1 & ph2 & arr & Hinv).
    by eapply (inv_step_settling p1 p2 _ _ _ Hp1 Hp2).
Qed.

Lemma all_settles_in_a_later_tick_witness :
  state_of (called 0 1 one_and_two) 2 = Some Pending /\
  (forall es e,
      let s := run es (called 0 1 one_and_two) in
      state_of s 2 = Some Pending ->
      state_of (step e s) 2 <> Some Pending ->
      e = Tick /\
      (exists j rest, jobs s = j :: rest /\ j_handler j = Some (HAllCb 0)) /\
      (exists v1 v2, state_of s 0 = Some (Fulfilled v1) /\
                     state_of s 1 = Some (Fulfilled v2))).
Proof.
  exact (all_settles_in_a_later_tick one_and_two 0 1
           (Fulfilled (VNumber 1)) (Fulfilled (VNumber 2))
           eq_refl eq_refl eq_refl).
Defined.

(** C5, as stated, fails: after [all] on two pending handles no call of
    [then] on the first input has passed a rejection listener. *)
Lemma no_rejection_listener_registered :
  fulfilment_listeners 0 (then_calls (called 0 1 two_pending)) = 1%nat /\
  rejection_listeners 0 (then_calls (called 0 1 two_pending)) = 0%nat /\
  rejection_listeners 0 (then_calls (called 0 1 two_pending)) <> 1%nat.
Proof. vm_compute. by repeat split. Qed.

(** C5, amended: [all] calls [then] exactly once on each input, first
    on [p1] and then on [p2], whatever the states of the inputs; each call
    passes the arrow function as fulfilment listener and no rejection
    listener. *)
Theorem all_registers_fulfilment_listeners_only s p1 p2 :
  let calls := [(p1, Some (HAllCb (length (frames s))), None);
                (p2, Some (HAllCb (length (frames s))), None)] in
  then_calls (called p1 p2 s) = then_calls s ++ calls /\
  (forall p, rejection_listeners p calls = 0%nat) /\
  (p1 <> p2 ->
   fulfilment_listeners p1 calls = 1%nat /\ fulfilment_listeners p2 calls = 1%nat).
Proof.
  intros calls. split; [apply called_then_calls|]. split.
  - intros p. unfold rejection_listeners, calls.
    rewrite !filter_cons_False, filter_nil; cbn; [done| |];
      intros [_ [x Hx]]; discriminate.
  - intros Hne. unfold fulfilment_listeners, calls. split.
    + rewrite filter_cons_True by (cbn; eauto).
      rewrite filter_cons_False, filter_nil by (cbn; intros [? _]; congruence). done.
    + rewrite filter_cons_False by (cbn; intros [? _]; congruence).
      rewrite filter_cons_True, filter_nil by (cbn; eauto). done.
Qed.

(** C6, as stated, fails: both inputs are rejected at the call, every
    job has run, and the output promise is pending, rejected with neither
    error. *)
Lemma first_rejection_does_not_win :
  let s := run [Tick; Tick] (called 0 1 two_rejected) in
  state_of s 0 = Some (Rejected (VString "first")) /\
  state_of s 1 = Some (Rejected (VString "second")) /\
  jobs s = [] /\
  state_of s 2 = Some Pending /\
  state_of s 2 <> Some (Rejected (VString "first")).
Proof. vm_compute. by repeat split. Qed.

(** C6, amended: when both inputs of [all] reject, the output promise
    stays pending under every further schedule; it is rejected with
    neither of the two errors. *)
Theorem two_rejections_leave_all_pending s0 p1 p2 st1 st2 es es' e1 e2 :
  wf s0 = true ->
  state_of s0 p1 = Some st1 ->
  state_of s0 p2 = Some st2 ->
  state_of (run es (called p1 p2 s0)) p1 = Some (Rejected e1) ->
  state_of (run es (called p1 p2 s0)) p2 = Some (Rejected e2) ->
  let o := length (promises s0) in
  let s' := run (es ++ es') (called p1 p2 s0) in
  state_of s' o = Some Pending /\
  state_of s' o <> Some (Rejected e1) /\
  state_of s' o <> Some (Rejected e2).
Proof.
  intros Hwf H1 H2 Hr1 Hr2 o s'.
  pose proof (handle_lt _ _ _ H1) as Hp1. pose proof (handle_lt _ _ _ H2) as Hp2.
  destruct (reach_called s0 p1 p2 st1 st2 Hwf H1 H2 es) as (ph1 & ph2 & arr & Hinv).
  assert (Hpen : state_of s' o = Some Pending).
  { unfold s'. rewrite run_app. eapply (rejected_keeps_pending p1 p2); eauto. }
  rewrite Hpen. by repeat split.
Qed.

Lemma two_rejections_leave_all_pending_witness :
  let s' := run ([] ++ [Tick; Tick]) (called 0 1 two_rejected) in
  state_of s' 2 = Some Pending /\
  state_of s' 2 <> Some (Rejected (VString "first")) /\
  state_of s' 2 <> Some (Rejected (VString "second")).
Proof.
  exact (two_rejections_leave_all_pending two_rejected 0 1
           (Rejected (VString "first")) (Rejected (VString "second"))
           [] [Tick; Tick] (VString "first") (VString "second")
           eq_refl eq_refl eq_refl eq_refl eq_refl).
Defined.

(** C7, as stated, fails: called without inputs, [all] returns a promise
    that is already rejected with a TypeError; the next tick changes
    nothing, and [result] is never delivered. *)
Lemma no_inputs_rejects_at_once :
  let s := state_after (all (AValue VUndefined) (AValue VUndefined)) (handles []) in
  state_of s 0 = Some (Rejected (then_error VUndefined)) /\
  state_of (step Tick s) 0 = Some (Rejected (then_error VUndefined)) /\
  state_of (step Tick s) 0 <> Some (Fulfilled (VArray 0)).
Proof. vm_compute. by repeat split. Qed.

(** C7, amended: when the first argument of [all] is not a promise (as
    in a call without inputs, where it is [undefined]), the returned
    promise is rejected with a TypeError inside the call itself and stays
    rejected under every schedule. *)
Theorem all_without_handles_rejects s v x2 es :
  let o := length (promises s) in
  let s' := state_after (all (AValue v) x2) s in
  snd (all (AValue v) x2 s) = Normal o /\
  state_of s' o = Some (Rejected (then_error v)) /\
  state_of (run es s') o = Some (Rejected (then_error v)).
Proof.
  intros o s'.
  assert (Hs : s' = settle o KReject (then_error v) (entered s)) by done.
  assert (Ho : state_of s' o = Some (Rejected (then_error v))).
  { rewrite Hs. unfold settle, state_of, o. cbn.
    rewrite list_lookup_middle by done. cbn.
    rewrite list_lookup_insert_eq; [done|]. rewrite length_app. cbn. lia. }
  split; [done|]. split; [done|]. by apply run_stable.
Qed.

(** C8: [all] on an already fulfilled handle with value 1 followed by an
    already fulfilled handle with value 2 fulfils, once the queued jobs
    have run, with the sequence [1; 2], whatever else is queued and
    whatever the surrounding program does in between. *)
Theorem all_of_one_and_two s0 p1 p2 es :
  wf s0 = true ->
  state_of s0 p1 = Some (Fulfilled (VNumber 1)) ->
  state_of s0 p2 = Some (Fulfilled (VNumber 2)) ->
  let s := run es (called p1 p2 s0) in
  state_of (drain (work s) s) (length (promises s0)) =
    Some (Fulfilled (VArray (length (heap s0)))) /\
  heap (drain (work s) s) !! length (heap s0) = Some [VNumber 1; VNumber 2].
Proof.
  intros Hwf H1 H2. by apply fulfilled_at_call_in_input_order.
Qed.

Lemma all_of_one_and_two_witness :
  let s := run [] (called 0 1 one_and_two) in
  state_of (drain (work s) s) 2 = Some (Fulfilled (VArray 0)) /\
  heap (drain (work s) s) !! 0%nat = Some [VNumber 1; VNumber 2].
Proof.
  exact (all_of_one_and_two one_and_two 0 1 [] eq_refl eq_refl eq_refl).
Defined.

(** C9: [all] itself never throws; when the executor throws while it
    registers the listeners, the error becomes the rejection of the
    returned promise. *)
Theorem executor_failure_becomes_rejection s x1 x2 s1 e :
  all_executor x1 x2 (length (promises s)) (allocated s) = (s1, Throw e) ->
  snd (all x1 x2 s) = Normal (length (promises s)) /\
  state_of (state_after (all x1 x2) s) (length (promises s)) = Some (Rejected e) /\
  (forall a b t, snd (all a b t) = Normal (length (promises t))).
Proof.
  intros Hex. destruct (executor_failure_rejects _ _ _ _ _ Hex) as [Hn Hr].
  split; [done|]. split; [done|].
  clear. intros a b t. unfold all, new_promise.
  by destruct (all_executor a b _ _) as [t1 [[]|err]].
Qed.

Lemma executor_failure_becomes_rejection_witness :
  snd (all (APromise 0) (AValue VUndefined) two_pending) = Normal 2%nat /\
  state_of (state_after (all (APromise 0) (AValue VUndefined)) two_pending) 2 =
    Some (Rejected (then_error VUndefined)) /\
  (forall a b t, snd (all a b t) = Normal (length (promises t))).
Proof.
  exact (executor_failure_becomes_rejection two_pending
           (APromise 0) (AValue VUndefined) _ (then_error VUndefined) eq_refl).
Defined.

(** C10: on two promise handles the output promise of [all] is never
    rejected, and the arrow function of [all] rejects no promise at all;
    the output promise is fulfilled once both inputs are fulfilled and the
    queued jobs have run, and it stays pending for ever once an input has
    rejected. *)
Theorem all_never_rejects s0 p1 p2 st1 st2 es :
  wf s0 = true ->
  state_of s0 p1 = Some st1 ->
  state_of s0 p2 = Some st2 ->
  let s := run es (called p1 p2 s0) in
  let o := length (promises s0) in
  (forall e, state_of s o <> Some (Rejected e)) /\
  (forall f x s' q e,
      state_of (fst (all_callback f x s')) q = Some (Rejected e) ->
      state_of s' q = Some (Rejected e)) /\
  (forall v1 v2,
      state_of s p1 = Some (Fulfilled v1) ->
      state_of s p2 = Some (Fulfilled v2) ->
      state_of (drain (work s) s) o = Some (Fulfilled (VArray (length (heap s0))))) /\
  (forall e es',
      state_of s p1 = Some (Rejected e) \/ state_of s p2 = Some (Rejected e) ->
      state_of (run es' s) o = Some Pending).
Proof.
  intros Hwf H1 H2 s o.
  pose proof (handle_lt _ _ _ H1) as Hp1. pose proof (handle_lt _ _ _ H2) as Hp2.
  destruct (reach_called s0 p1 p2 st1 st2 Hwf H1 H2 es) as (ph1 & ph2 & arr & Hinv).
  split; [|split; [|split]].
  - intros e. by eapply inv_not_rejected.
  - apply all_callback_no_reject.
  - intros v1 v2 Hv1 Hv2.
    by destruct (drain_fulfils p1 p2 _ _ _ _ _ _ _ v1 v2 Hp1 Hp2 Hinv Hv1 Hv2).
  - intros e es' Hrej. by eapply (rejected_keeps_pending p1 p2).
Qed.

Lemma all_never_rejects_witness :
  let s := run [EnvFulfill 0 (VNumber 7)] (called 0 1 pending_and_two) in
  (forall e, state_of s 2 <> Some (Rejected e)) /\
  (forall f x s' q e,
      state_of (fst (all_callback f x s')) q = Some (Rejected e) ->
      state_of s' q = Some (Rejected e)) /\
  (forall v1 v2,
      state_of s 0 = Some (Fulfilled v1) ->
      state_of s 1 = Some (Fulfilled v2) ->
      state_of (drain (work s) s) 2 = Some (Fulfilled (VArray 0))) /\
  (forall e es',
      state_of s 0 = Some (Rejected e) \/ state_of s 1 = Some (Rejected e) ->
      state_of (run es' s) 2 = Some Pending).
Proof.
  exact (all_never_rejects pending_and_two 0 1 Pending (Fulfilled (VNumber 2))
           [EnvFulfill 0 (VNumber 7)] eq_refl eq_refl eq_refl).
Defined.

(** ** Further properties of the program *)

(** *** What the last line prints *)

Lemma filter_log_jobs k v rs :
  Forall (fun r => on_rejected r <> Some HConsoleLog) rs ->
  filter (fun j => j_handler j = Some HConsoleLog) (map (reaction_job k v) rs) =
  match k with
  | KFulfill =>
      map (reaction_job KFulfill v)
        (filter (fun r => on_fulfilled r = Some HConsoleLog) rs)
  | KReject => []
  end.
Proof.
  induction 1 as [|r rs Hr _ IH]; [by destruct k|].
  cbn [map]. rewrite filter_cons. destruct k; cbn.
  - destruct (decide (on_fulfilled r = Some HConsoleLog)); cbn; by rewrite IH.
  - by rewrite decide_False.
Qed.

(** [log_core] does not look at frames and arrays. *)
Lemma log_core_ext np na c0 lp arr s s' :
  promises s' = promises s -> jobs s' = jobs s -> console s' = console s ->
  log_core np na c0 lp arr s -> log_core np na c0 lp arr s'.
Proof.
  intros Hp Hj Hc (R1 & R2 & J & C & L).
  unfold log_core, state_of. rewrite Hp, Hj, Hc. done.
Qed.

(** Settling a promise: the listener of the last line moves to the
    queue when the promise is the output promise, which is only ever
    fulfilled with [result]. *)
Lemma log_core_settle np na c0 lp arr s q k v :
  log_core np na c0 lp arr s ->
  (q = np -> k = KFulfill /\ v = VArray na) ->
  exists lp',
    log_core np na c0 lp' arr (settle q k v s) /\
    (lp' = lp \/ (lp = LWait /\ lp' = LQueued /\ q = np)).
Proof.
  intros (R1 & R2 & J & C & L) Hq.
  destruct (settle_cases q k v s) as [(ow & rs & Hc & ->)|[Hnp ->]].
  2:{ exists lp. split; [done|by left]. }
  assert (Hlt : (q < length (promises s))%nat) by (by eapply lookup_lt_Some).
  pose proof (R1 _ _ Hc) as R1q. pose proof (R2 _ _ Hc) as R2q. cbn in R1q, R2q.
  assert (HR1 : forall q' c,
            <[q := Cell ow (settled k v) []]> (promises s) !! q' = Some c ->
            Forall (fun r => on_rejected r <> Some HConsoleLog) (c_reactions c)).
  { intros q' c. destruct (decide (q' = q)) as [->|Hne].
    - rewrite list_lookup_insert_eq by done. intros [= <-]. constructor.
    - rewrite list_lookup_insert_ne by done. apply R1. }
  destruct (decide (q = np /\ lp = LWait)) as [[-> ->]|Hno].
  - destruct (Hq eq_refl) as [-> ->].
    exists LQueued. split; [|right; done].
    split; [exact HR1|split; [|split; [|split]]].
    + intros q' c. cbn [promises set_jobs set_promises].
      rewrite (decide_False (P := q' = np /\ LQueued = LWait)) by (by intros [_ ?]).
      destruct (decide (q' = np)) as [->|Hne].
      * rewrite list_lookup_insert_eq by done. by intros [= <-].
      * rewrite list_lookup_insert_ne by done.
        intros Hc'. rewrite (R2 _ _ Hc'). rewrite decide_False; [done|].
        by intros [? _].
    + cbn [jobs set_jobs]. rewrite filter_app, J, (filter_log_jobs _ _ _ R1q), R2q. done.
    + cbn. by rewrite C.
    + split; [done|]. unfold state_of. cbn.
      rewrite list_lookup_insert_eq by done. done.
  - exists lp. split; [|by left].
    split; [exact HR1|split; [|split; [|split]]].
    + intros q' c. cbn [promises set_jobs set_promises].
      destruct (decide (q' = q)) as [->|Hne].
      * rewrite list_lookup_insert_eq by done. intros [= <-]. cbn.
        by rewrite decide_False.
      * rewrite list_lookup_insert_ne by done. apply R2.
    + cbn [jobs set_jobs]. rewrite filter_app, J, (filter_log_jobs _ _ _ R1q), R2q.
      destruct k; by rewrite app_nil_r.
    + cbn. by rewrite C.
    + rewrite L. unfold state_of. cbn.
      destruct (decide (q = np)) as [->|Hne].
      * rewrite list_lookup_insert_eq by done. rewrite Hc. cbn.
        split; [|by destruct k].
        intros Hp. exfalso. apply Hno. split; [done|]. apply L.
        unfold state_of. by rewrite Hc.
      * by rewrite list_lookup_insert_ne.
Qed.

(** Taking a job that is not a [console.log] job off the queue. *)
Lemma log_core_pop np na c0 lp arr s j rest :
  log_core np na c0 lp arr s -> jobs s = j :: rest ->
  j_handler j <> Some HConsoleLog ->
  log_core np na c0 lp arr (set_jobs rest s).
Proof.
  intros (R1 & R2 & J & C & L) Hj Hh.
  rewrite Hj, filter_cons_False in J by done. done.
Qed.

(** One event: the listener of the last line stays where it is, moves
    to the queue, or runs and prints [result] as it is then. *)
Lemma log_core_step p1 p2 np nf na ph1 ph2 arr0 c0 lp arr e s :
  inv p1 p2 np nf na ph1 ph2 arr0 s ->
  log_core np na c0 lp arr s ->
  exists lp' arr',
    log_core np na c0 lp' arr' (step e s) /\
    ((lp' = lp /\ arr' = arr) \/
     (lp = LWait /\ lp' = LQueued) \/
     (lp = LQueued /\ lp' = LDone /\ heap s !! na = Some arr')).
Proof.
  intros [Hc [ors Ho]] Hlog.
  assert (Hset : forall t q k v,
            log_core np na c0 lp arr t -> q <> np ->
            log_core np na c0 lp arr (settle q k v t)).
  { intros t q k v Ht Hne.
    destruct (log_core_settle _ _ _ _ _ _ q k v Ht) as (lp' & H' & [->|(_ & _ & ?)]);
      done. }
  assert (Henv : forall q k v, log_core np na c0 lp arr (env_settle q k v s)).
  { intros q k v. unfold env_settle.
    destruct (promises s !! q) as [[[] [] rs]|] eqn:Hq; try done.
    apply Hset; [done|]. intros ->. congruence. }
  destruct e as [q v|q v|].
  - exists lp, arr. split; [apply Henv|by left].
  - exists lp, arr. split; [apply Henv|by left].
  - cbn. destruct (jobs s) as [|j rest] eqn:Hj.
    { exists lp, arr. split; [done|by left]. }
    assert (Hok : job_ok np nf j).
    { pose proof (core_jobs Hc) as Hjs. rewrite Hj in Hjs. by inversion Hjs. }
    destruct Hok as [Hdo _].
    unfold run_job. destruct (j_handler j) as [[f|]|] eqn:Hh.
    + (* a listener of some call of [all] *)
      assert (Hpop : log_core np na c0 lp arr (set_jobs rest s)).
      { eapply log_core_pop; [done|done|]. rewrite Hh. done. }
      cbn [call_handler]. unfold all_callback. cbn [frames set_jobs].
      destruct (frames s !! f) as [[c a out]|] eqn:Hf.
      2:{ exists lp, arr. split; [by apply Hset|by left]. }
      set (s1 := set_heap _ _).
      assert (H1 : log_core np na c0 lp arr s1).
      { eapply log_core_ext; [| | |exact Hpop]; done. }
      assert (Hout : out = np -> a = na).
      { intros ->. destruct (decide (f = nf)) as [->|Hne].
        - rewrite (core_frame Hc) in Hf. congruence.
        - by destruct (core_frames Hc f _ Hne Hf). }
      destruct (2 <=? c + 1).
      * destruct (log_core_settle _ _ _ _ _ _ out KFulfill (VArray a) H1)
          as (lp' & H' & Hlp).
        { intros E. by rewrite (Hout E). }
        destruct (log_core_settle _ _ _ _ _ _ (j_derived j) KFulfill VUndefined H')
          as (lp'' & H'' & [->|(_ & _ & ?)]); [done| |done].
        exists lp', arr. split; [done|].
        destruct Hlp as [->|(-> & -> & _)]; [by left|right; by left].
      * exists lp, arr. split; [by apply Hset|by left].
    + (* [console.log] *)
      destruct Hlog as (R1 & R2 & J & C & L).
      rewrite Hj, filter_cons_True in J by done.
      destruct lp; try done. inversion J as [[Hjl Hrest]].
      clear J. subst j.
      cbn [call_handler j_arg j_derived log_job print set_jobs heap].
      rewrite (core_heap Hc). cbn [default from_option id].
      set (s2 := set_console _ _).
      assert (H2 : log_core np na c0 LDone arr0 s2).
      { split; [exact R1|split; [|split; [|split]]].
        - intros q c Hq. rewrite (R2 _ _ Hq).
          rewrite !decide_False; [done|by intros [_ ?]|by intros [_ ?]].
        - done.
        - cbn. rewrite C. by rewrite app_nil_r.
        - split; [done|]. intros Hp. by apply L in Hp. }
      destruct (log_core_settle _ _ _ _ _ _ (S (S (S np))) KFulfill VUndefined H2)
        as (lp'' & H'' & [->|(? & _)]); [lia| |done].
      exists LDone, arr0. split; [done|]. right; right.
      by repeat split.
    + (* a pass-through job *)
      exists lp, arr. split; [|by left]. apply Hset; [|done].
      eapply log_core_pop; [done|done|]. by rewrite Hh.
Qed.

Lemma log_inv_step p1 p2 np nf na ph1 ph2 arr0 c0 lp arr e s :
  (p1 < np)%nat -> (p2 < np)%nat ->
  inv p1 p2 np nf na ph1 ph2 arr0 s ->
  log_inv np na c0 lp arr s ->
  exists lp' arr', log_inv np na c0 lp' arr' (step e s).
Proof.
  intros Hp1 Hp2 Hinv [Hcore Hheap].
  assert (Hsame : lp <> LWait -> heap (step e s) !! na = heap s !! na).
  { intros Hne. eapply (inv_step_settled p1 p2 np nf na Hp1 Hp2); [exact Hinv|].
    intros Hp. apply Hne. by apply Hcore. }
  destruct (log_core_step _ _ _ _ _ _ _ _ _ _ _ e _ Hinv Hcore)
    as (lp' & arr' & Hcore' & [(-> & ->)|[(-> & ->)|(-> & -> & Hh)]]).
  - exists lp, arr. split; [done|]. intros ->. rewrite Hsame by done. by apply Hheap.
  - exists LQueued, arr'. by split.
  - exists LDone, arr'. split; [done|]. intros _. by rewrite Hsame.
Qed.

Lemma log_inv_run p1 p2 np nf na c0 es :
  (p1 < np)%nat -> (p2 < np)%nat ->
  forall ph1 ph2 arr0 lp arr s,
  inv p1 p2 np nf na ph1 ph2 arr0 s ->
  log_inv np na c0 lp arr s ->
  exists ph1' ph2' arr0' lp' arr',
    inv p1 p2 np nf na ph1' ph2' arr0' (run es s) /\
    log_inv np na c0 lp' arr' (run es s).
Proof.
  intros Hp1 Hp2. induction es as [|e es IH]; intros ph1 ph2 arr0 lp arr s Hinv Hlog.
  - by exists ph1, ph2, arr0, lp, arr.
  - destruct (inv_step _ _ _ _ _ Hp1 Hp2 e _ _ _ _ Hinv) as (a & b & c & Hinv' & _).
    destruct (log_inv_step _ _ _ _ _ _ _ _ _ _ _ e _ Hp1 Hp2 Hinv Hlog)
      as (lp' & arr' & Hlog').
    cbn. by eapply IH.
Qed.

Lemma sum_list_with_zero {A} (f : A -> nat) (l : list A) :
  sum_list_with f l = 0%nat -> Forall (fun x => f x = 0%nat) l.
Proof.
  induction l as [|x l IH]; cbn; [constructor|].
  intros H. constructor; [lia|apply IH; lia].
Qed.

(** A state without [console.log] listeners has none stored and none
    queued. *)
Lemma loggers_none s :
  loggers s = 0%nat ->
  (forall q c, promises s !! q = Some c ->
     Forall (fun r => on_fulfilled r <> Some HConsoleLog /\
                      on_rejected r <> Some HConsoleLog) (c_reactions c)) /\
  Forall (fun j => j_handler j <> Some HConsoleLog) (jobs s).
Proof.
  unfold loggers, potential. intros H.
  assert (Hj : sum_list_with (fun j => logs (j_handler j)) (jobs s) = 0%nat) by lia.
  assert (Hc : sum_list_with
                 (fun c => sum_list_with
                    (fun r => (logs (on_fulfilled r) + logs (on_rejected r))%nat)
                    (c_reactions c)) (promises s) = 0%nat) by lia.
  apply sum_list_with_zero in Hj, Hc. split.
  - intros q c Hq.
    pose proof (proj1 (Forall_lookup _ _) Hc _ _ Hq) as Hq0. cbn in Hq0.
    apply sum_list_with_zero in Hq0.
    eapply Forall_impl; [exact Hq0|]. intros r Hr. cbn in Hr.
    split; intros E; rewrite E in Hr; cbn in Hr; lia.
  - eapply Forall_impl; [exact Hj|]. intros j Hj0 E. cbn in Hj0.
    rewrite E in Hj0. done.
Qed.

(** After the last line of the file the listener waits on the output
    promise, and nothing has been printed. *)
Lemma started_log s0 p1 p2 st1 st2 :
  wf s0 = true -> loggers s0 = 0%nat ->
  state_of s0 p1 = Some st1 -> state_of s0 p2 = Some st2 ->
  log_inv (length (promises s0)) (length (heap s0)) (console s0) LWait []
    (started p1 p2 s0).
Proof.
  intros Hwf Hlog H1 H2.
  destruct (loggers_none _ Hlog) as [Hr0 Hj0].
  pose proof (all_inv s0 p1 p2 st1 st2 Hwf H1 H2) as Hinv.
  set (np := length (promises s0)) in *.
  set (P := fun r => on_fulfilled r <> Some HConsoleLog /\
                     on_rejected r <> Some HConsoleLog).
  assert (Hr1 : forall q c, promises (called p1 p2 s0) !! q = Some c ->
                  Forall P (c_reactions c)).
  { unfold called, state_after. rewrite all_unfold. cbn [fst].
    apply then_recs; [apply then_recs|]; try done.
    intros q c [->|H]%entered_lookup; [constructor|]. by eapply Hr0. }
  assert (Hj1 : Forall (fun j => j_handler j <> Some HConsoleLog)
                  (jobs (called p1 p2 s0))).
  { unfold called, state_after. rewrite all_unfold. cbn [fst].
    apply then_jobs; [apply then_jobs|]; try done; by intros [] v. }
  assert (Hpen : state_of (called p1 p2 s0) np = Some Pending).
  { by rewrite (inv_out_state _ _ _ _ _ _ _ _ _ Hinv). }
  split; [|done].
  rewrite started_eq. fold np.
  destruct (then_cases np (Some HConsoleLog) None (called p1 p2 s0))
    as [(ow & rs & Hp & Hps & Hjs)|[(k & v & Hk & _)|(Hn & _)]].
  2:{ rewrite Hpen in Hk. by destruct k. }
  2:{ unfold state_of in Hpen. by rewrite Hn in Hpen. }
  rewrite called_length in Hps. fold np in Hps. fold (log_reaction np) in Hps.
  assert (Hlt : (np < length (promises (called p1 p2 s0) ++ [Cell Internal Pending []]))%nat).
  { rewrite length_app, called_length. fold np. lia. }
  assert (Hold : forall q c,
            (promises (called p1 p2 s0) ++ [Cell Internal Pending []]) !! q = Some c ->
            Forall P (c_reactions c)).
  { intros q c [H|[_ H]]%lookup_app_Some; [by eapply Hr1|].
    destruct (q - _)%nat; cbn in H; [|done]. inversion H. constructor. }
  pose proof (Hr1 _ _ Hp) as Hrs. cbn in Hrs.
  split; [|split; [|split; [|split]]].
  - intros q c. rewrite Hps. destruct (decide (q = np)) as [->|Hne].
    + rewrite list_lookup_insert_eq by done. intros [= <-]. cbn.
      apply Forall_app. split; [|by constructor].
      eapply Forall_impl; [exact Hrs|]. by intros r [_ ?].
    + rewrite list_lookup_insert_ne by done. intros Hq.
      eapply Forall_impl; [exact (Hold _ _ Hq)|]. by intros r [_ ?].
  - intros q c. rewrite Hps. destruct (decide (q = np)) as [->|Hne].
    + rewrite list_lookup_insert_eq by done. intros [= <-]. cbn.
      rewrite decide_True by done.
      rewrite filter_app, filter_cons_True, filter_nil by done.
      rewrite filter_none; [done|].
      eapply Forall_impl; [exact Hrs|]. by intros r [? _].
    + rewrite list_lookup_insert_ne by done. intros Hq.
      rewrite decide_False by (by intros [? _]).
      apply filter_none.
      eapply Forall_impl; [exact (Hold _ _ Hq)|]. by intros r [? _].
  - rewrite Hjs. by apply filter_none.
  - by rewrite then_console, called_console, app_nil_r.
  - split; [intros _|done]. unfold state_of. rewrite Hps.
    by rewrite list_lookup_insert_eq.
Qed.

(** Once the listener has run, the line on the console is [result],
    which holds the values of the two inputs. *)
Lemma log_done_result p1 p2 np nf na ph1 ph2 arr0 c0 arr s :
  (p1 < np)%nat -> (p2 < np)%nat ->
  inv p1 p2 np nf na ph1 ph2 arr0 s ->
  log_inv np na c0 LDone arr s ->
  console s = c0 ++ [PrintArray arr] /\
  heap s !! na = Some arr /\
  exists v1 v2,
    state_of s p1 = Some (Fulfilled v1) /\ state_of s p2 = Some (Fulfilled v2) /\
    (arr = [v1; v2] \/ arr = [v2; v1]).
Proof.
  intros Hp1 Hp2 Hinv [(_ & _ & _ & C & L) Hh].
  specialize (Hh eq_refl). split; [done|]. split; [done|].
  assert (Hne : state_of s np <> Some Pending).
  { intros Hp. by apply L in Hp. }
  destruct (inv_settled_ran p1 p2 np nf na Hp1 Hp2 _ _ _ _ Hinv Hne)
    as (v1 & v2 & -> & ->).
  exists v1, v2.
  rewrite (inv_phase1 _ _ _ _ _ _ _ _ _ Hinv), (inv_phase2 _ _ _ _ _ _ _ _ _ Hinv).
  split; [done|]. split; [done|].
  destruct Hinv as [Hc _]. rewrite (core_heap Hc) in Hh. inversion Hh; subst.
  destruct (core_arr Hc) as [-> | ->]; cbn; eauto.
Qed.

Lemma log_console_cases np na c0 lp arr s :
  log_inv np na c0 lp arr s ->
  (lp <> LDone /\ console s = c0) \/ lp = LDone.
Proof.
  intros [(_ & _ & _ & C & _) _]. destruct lp; [left|left|by right];
    by rewrite C, app_nil_r.
Qed.

(** Both invariants after the last line of the file, under every
    schedule. *)
Lemma started_reach s0 p1 p2 st1 st2 es :
  wf s0 = true -> loggers s0 = 0%nat ->
  state_of s0 p1 = Some st1 -> state_of s0 p2 = Some st2 ->
  exists ph1 ph2 arr0 lp arr,
    inv p1 p2 (length (promises s0)) (length (frames s0)) (length (heap s0))
        ph1 ph2 arr0 (run es (started p1 p2 s0)) /\
    log_inv (length (promises s0)) (length (heap s0)) (console s0) lp arr
        (run es (started p1 p2 s0)).
Proof.
  intros Hwf Hlog H1 H2.
  pose proof (handle_lt _ _ _ H1) as Hp1. pose proof (handle_lt _ _ _ H2) as Hp2.
  pose proof (started_inv s0 p1 p2 st1 st2 Hwf H1 H2) as Hinv0.
  pose proof (started_log s0 p1 p2 st1 st2 Hwf Hlog H1 H2) as Hlog0.
  apply (log_inv_run p1 p2 _ _ _ _ es Hp1 Hp2 _ _ _ _ _ _ Hinv0 Hlog0).
Qed.

(** X1: the last line of the file, [all(p1, p2).then(console.log)], on two
    handles in a state without other [console.log] listeners: under every
    schedule the console holds at most one new line, and that line is
    [result] with the values of the two inputs, both fulfilled by then;
    once both inputs are fulfilled and the queued jobs have run, the line
    is there. *)
Theorem last_line_prints_the_result_once s0 p1 p2 st1 st2 es :
  wf s0 = true -> loggers s0 = 0%nat ->
  state_of s0 p1 = Some st1 -> state_of s0 p2 = Some st2 ->
  let s := run es (started p1 p2 s0) in
  let a := length (heap s0) in
  (console s = console s0 \/
   exists v1 v2 arr,
     console s = console s0 ++ [PrintArray arr] /\
     heap s !! a = Some arr /\
     state_of s p1 = Some (Fulfilled v1) /\
     state_of s p2 = Some (Fulfilled v2) /\
     (arr = [v1; v2] \/ arr = [v2; v1])) /\
  (forall v1 v2,
     state_of s p1 = Some (Fulfilled v1) ->
     state_of s p2 = Some (Fulfilled v2) ->
     exists arr,
       console (drain (work s) s) = console s0 ++ [PrintArray arr] /\
       heap (drain (work s) s) !! a = Some arr /\
       (arr = [v1; v2] \/ arr = [v2; v1])).
Proof.
  intros Hwf Hlog H1 H2 s a.
  pose proof (handle_lt _ _ _ H1) as Hp1. pose proof (handle_lt _ _ _ H2) as Hp2.
  destruct (started_reach s0 p1 p2 st1 st2 es Hwf Hlog H1 H2)
    as (ph1 & ph2 & arr0 & lp & arr & Hinv & Hl).
  fold s in Hinv, Hl. clearbody s.
  split.
  - destruct (log_console_cases _ _ _ _ _ _ Hl) as [[_ C]| ->]; [by left|right].
    destruct (log_done_result p1 p2 _ _ _ _ _ _ _ _ _ Hp1 Hp2 Hinv Hl)
      as (C & Hh & v1 & v2 & S1 & S2 & Harr).
    by exists v1, v2, arr.
  - intros v1 v2 S1 S2.
    destruct (drain_fulfils p1 p2 _ _ _ _ _ _ _ v1 v2 Hp1 Hp2 Hinv S1 S2) as [Hf Hh].
    pose proof (drain_empty (work s) s (le_n _)) as Hj.
    destruct (drain_run (work s) s) as [k Hk]. rewrite Hk in *.
    destruct (log_inv_run p1 p2 _ _ _ _ (replicate k Tick) Hp1 Hp2 _ _ _ _ _ _ Hinv Hl)
      as (ph1' & ph2' & arr0' & lp' & arr' & Hinv' & Hl').
    assert (lp' = LDone) as ->.
    { destruct Hl' as [(_ & _ & J & _ & L) _]. destruct lp'; [|by rewrite Hj in J|done].
      assert (Hp : state_of (run (replicate k Tick) s) (length (promises s0)) = Some Pending)
        by (by apply L).
      rewrite Hf in Hp. done. }
    destruct (log_done_result p1 p2 _ _ _ _ _ _ _ _ _ Hp1 Hp2 Hinv' Hl')
      as (C & Hh' & _).
    exists arr'. split; [done|]. split; [done|].
    rewrite Hh' in Hh. destruct Hh as [[= ->]|[= ->]]; eauto.
Qed.

Lemma last_line_prints_the_result_once_witness :
  exists arr,
    console (drain (work (run [EnvFulfill 1 (VNumber 20); EnvFulfill 0 (VNumber 10)]
                            (started 0 1 two_pending)))
               (run [EnvFulfill 1 (VNumber 20); EnvFulfill 0 (VNumber 10)]
                  (started 0 1 two_pending))) =
    console two_pending ++ [PrintArray arr] /\
    heap (drain (work (run [EnvFulfill 1 (VNumber 20); EnvFulfill 0 (VNumber 10)]
                         (started 0 1 two_pending)))
            (run [EnvFulfill 1 (VNumber 20); EnvFulfill 0 (VNumber 10)]
               (started 0 1 two_pending))) !! length (heap two_pending) = Some arr /\
    (arr = [VNumber 10; VNumber 20] \/ arr = [VNumber 20; VNumber 10]).
Proof.
  exact (proj2 (last_line_prints_the_result_once two_pending 0 1 Pending Pending
                  [EnvFulfill 1 (VNumber 20); EnvFulfill 0 (VNumber 10)]
                  eq_refl eq_refl eq_refl eq_refl)
           (VNumber 10) (VNumber 20) eq_refl eq_refl).
Defined.

(** X2: on the same terms, once an input has rejected the last line never
    prints anything: the console stays as it was under every further
    schedule. *)
Theorem rejected_input_prints_nothing s0 p1 p2 st1 st2 es es' e :
  wf s0 = true -> loggers s0 = 0%nat ->
  state_of s0 p1 = Some st1 -> state_of s0 p2 = Some st2 ->
  state_of (run es (started p1 p2 s0)) p1 = Some (Rejected e) \/
  state_of (run es (started p1 p2 s0)) p2 = Some (Rejected e) ->
  console (run (es ++ es') (started p1 p2 s0)) = console s0.
Proof.
  intros Hwf Hlog H1 H2 Hrej.
  pose proof (handle_lt _ _ _ H1) as Hp1. pose proof (handle_lt _ _ _ H2) as Hp2.
  destruct (started_reach s0 p1 p2 st1 st2 es Hwf Hlog H1 H2)
    as (ph1 & ph2 & arr0 & lp & arr & Hinv & Hl).
  rewrite run_app.
  destruct (log_inv_run p1 p2 _ _ _ _ es' Hp1 Hp2 _ _ _ _ _ _ Hinv Hl)
    as (ph1' & ph2' & arr0' & lp' & arr' & Hinv' & Hl').
  pose proof (rejected_keeps_pending p1 p2 _ _ _ _ _ _ _ e es' Hp1 Hp2 Hinv Hrej) as Hpen.
  destruct Hl' as [(_ & _ & _ & C & L) _].
  apply L in Hpen. subst lp'. by rewrite C, app_nil_r.
Qed.

Lemma rejected_input_prints_nothing_witness :
  console (run ([EnvReject 0 (VString "boom")] ++ [Tick; Tick; Tick; Tick])
             (started 0 1 pending_and_two)) = console pending_and_two.
Proof.
  exact (rejected_input_prints_nothing pending_and_two 0 1
           Pending (Fulfilled (VNumber 2))
           [EnvReject 0 (VString "boom")] [Tick; Tick; Tick; Tick] (VString "boom")
           eq_refl eq_refl eq_refl eq_refl (or_introl eq_refl)).
Defined.

(** *** One call after another *)










(** *** What a call leaves alone, and calls that fail *)


Lemma kept_refl s : kept s s.
Proof.
  split; [done|]. split; [done|]. split; [|done].
  exists []. by rewrite app_nil_r.
Qed.





(** The state after [all] on any two arguments, step by step. *)
Lemma all_cases x1 x2 s :
  let cb := Some (HAllCb (length (frames s))) in
  let o := length (promises s) in
  state_after (all x1 x2) s =
  match x1, x2 with
  | AValue v, _ => settle o KReject (then_error v) (entered s)
  | APromise p1, AValue v =>
      settle o KReject (then_error v) (fst (then_ p1 cb None (entered s)))
  | APromise p1, APromise p2 =>
      fst (then_ p2 cb None (fst (then_ p1 cb None (entered s))))
  end.
Proof.
  unfold state_after, all, new_promise, all_executor, bind, enter_executor,
    then_arg, throw, ret.
  cbn [frames heap set_promises promises]. fold (entered s).
  destruct x1 as [p1|v1]; [|done].
  destruct (then_ p1 _ None (entered s)) as [s1 d1] eqn:E1. cbn [fst].
  destruct x2 as [p2|v2]; [|done].
  by destruct (then_ p2 _ None s1) as [s2 d2] eqn:E2.
Qed.


(** X5: the arguments are used in order: with a first argument that is not
    a promise [all] calls [then] on nothing at all; with a promise first
    and something else second it has registered its listener on the first
    input when the second makes the executor throw, and the output promise
    is rejected with that TypeError for good. *)
Theorem registration_stops_at_the_first_failure s p1 v x2 es :
  let cb := Some (HAllCb (length (frames s))) in
  let o := length (promises s) in
  then_calls (state_after (all (AValue v) x2) s) = then_calls s /\
  then_calls (state_after (all (APromise p1) (AValue v)) s) =
    then_calls s ++ [(p1, cb, None)] /\
  state_of (state_after (all (APromise p1) (AValue v)) s) o =
    Some (Rejected (then_error v)) /\
  state_of (run es (state_after (all (APromise p1) (AValue v)) s)) o =
    Some (Rejected (then_error v)).
Proof.
  intros cb o.
  assert (Hrej : state_of (state_after (all (APromise p1) (AValue v)) s) o =
                 Some (Rejected (then_error v))).
  { destruct (all_executor (APromise p1) (AValue v) (length (promises s)) (allocated s))
      as [s1 r] eqn:E.
    assert (r = Throw (then_error v)) as ->.
    { revert E. unfold all_executor, bind, enter_executor, then_arg, throw.
      destruct (then_ p1 _ None _). by intros [= _ <-]. }
    by destruct (executor_failure_rejects _ _ _ _ _ E). }
  split; [|split; [|split]].
  - rewrite all_cases. unfold settle. by repeat case_match.
  - rewrite all_cases.
    assert (Hs : forall q k w t, then_calls (settle q k w t) = then_calls t).
    { intros q k w t. unfold settle. by repeat case_match. }
    by rewrite Hs, then_then_calls.
  - done.
  - by apply run_stable.
Qed.

(** The state after the last line of the file when the first argument
    is not a promise: the output promise is rejected, and the job that
    passes the rejection on to the promise [then] returned is the only
    new one. *)
Lemma main_without_handle s v x2 :
  let o := length (promises s) in
  let e := then_error v in
  state_after (main (AValue v) x2) s =
  set_then_calls (then_calls s ++ [(o, Some HConsoleLog, None)])
    (set_jobs (jobs s ++ [Job None KReject e (S o)])
       (set_promises
          (promises s ++ [Cell Internal (Rejected e) []; Cell Internal Pending []])
          (entered s))).
Proof.
  intros o e. rewrite main_state, all_cases.
  assert (Hs : settle o KReject e (entered s) =
               set_promises (promises s ++ [Cell Internal (Rejected e) []]) (entered s)).
  { unfold settle, o. cbn [entered promises set_frames set_heap set_promises].
    rewrite list_lookup_middle by done. cbn [map jobs set_jobs set_promises].
    rewrite app_nil_r.
    rewrite insert_app_r_alt, Nat.sub_diag by done.
    by destruct s. }
  fold o e. rewrite Hs. unfold then_.
  cbn [promises set_promises entered set_frames set_heap].
  rewrite list_lookup_middle by done.
  cbn. rewrite length_app. cbn [length].
  replace (length (promises s) + 1)%nat with (S o) by (unfold o; lia).
  by rewrite <- app_assoc.
Qed.

(** X6: when the first argument of [all] is not a promise the TypeError
    reaches no handler: [then(console.log)] passes no rejection listener,
    so with nothing else queued the next tick rejects the promise that
    [then] returned with the same TypeError, nothing is printed, and that
    promise stays rejected. *)
Theorem type_error_is_never_handled s v x2 es :
  jobs s = [] ->
  let s' := state_after (main (AValue v) x2) s in
  let o := length (promises s) in
  state_of s' o = Some (Rejected (then_error v)) /\
  state_of s' (S o) = Some Pending /\
  console s' = console s /\
  state_of (step Tick s') (S o) = Some (Rejected (then_error v)) /\
  console (step Tick s') = console s /\
  jobs (step Tick s') = [] /\
  state_of (run es (step Tick s')) (S o) = Some (Rejected (then_error v)).
Proof.
  intros Hj s' o. unfold s'. rewrite main_without_handle. fold o.
  set (e := then_error v).
  set (ps := promises s ++ [Cell Internal (Rejected e) []; Cell Internal Pending []]).
  assert (Ho : ps !! o = Some (Cell Internal (Rejected e) [])).
  { unfold ps, o. by rewrite list_lookup_middle. }
  assert (Hd : ps !! S o = Some (Cell Internal Pending [])).
  { unfold ps, o. rewrite lookup_app_r by lia.
    by replace (S (length (promises s)) - length (promises s))%nat with 1%nat by lia. }
  assert (Hstep : state_of (step Tick
            (set_then_calls (then_calls s ++ [(o, Some HConsoleLog, None)])
               (set_jobs (jobs s ++ [Job None KReject e (S o)])
                  (set_promises ps (entered s))))) (S o) = Some (Rejected e) /\
          console (step Tick
            (set_then_calls (then_calls s ++ [(o, Some HConsoleLog, None)])
               (set_jobs (jobs s ++ [Job None KReject e (S o)])
                  (set_promises ps (entered s))))) = console s /\
          jobs (step Tick
            (set_then_calls (then_calls s ++ [(o, Some HConsoleLog, None)])
               (set_jobs (jobs s ++ [Job None KReject e (S o)])
                  (set_promises ps (entered s))))) = []).
  { rewrite Hj. cbn [step app jobs set_then_calls set_jobs].
    unfold run_job. cbn [j_handler j_derived j_kind j_arg].
    unfold settle. cbn [promises set_jobs set_promises set_then_calls].
    rewrite Hd. cbn [map app]. unfold state_of.
    cbn [promises set_jobs set_promises console jobs].
    rewrite list_lookup_insert_eq by (by eapply lookup_lt_Some). done. }
  destruct Hstep as (H1 & H2 & H3).
  split; [|split; [|split; [|split; [|split; [|split]]]]]; try done.
  - unfold state_of. cbn. by rewrite Ho.
  - unfold state_of. cbn. by rewrite Hd.
  - by apply run_stable.
Qed.

Lemma type_error_is_never_handled_witness :
  let s' := state_after (main (AValue VUndefined) (AValue VUndefined)) (handles []) in
  state_of s' 0 = Some (Rejected (then_error VUndefined)) /\
  state_of s' 1 = Some Pending /\
  console s' = [] /\
  state_of (step Tick s') 1 = Some (Rejected (then_error VUndefined)) /\
  console (step Tick s') = [] /\
  jobs (step Tick s') = [] /\
  state_of (run [Tick; Tick] (step Tick s')) 1 = Some (Rejected (then_error VUndefined)).
Proof.
  exact (type_error_is_never_handled (handles []) VUndefined (AValue VUndefined)
           [Tick; Tick] eq_refl).
Defined.

(** X7: the same handle as both inputs counts twice: [all(p, p)] calls
    [then] on it twice, and once it is fulfilled with [v] and the queued
    jobs have run the output promise is fulfilled with [[v; v]]; if it
    rejects the output promise stays pending. *)
Theorem same_handle_twice s0 p st es :
  wf s0 = true ->
  state_of s0 p = Some st ->
  let s := run es (called p p s0) in
  let o := length (promises s0) in
  let a := length (heap s0) in
  fulfilment_listeners p
    [(p, Some (HAllCb (length (frames s0))), None);
     (p, Some (HAllCb (length (frames s0))), None)] = 2%nat /\
  then_calls (called p p s0) =
    then_calls s0 ++ [(p, Some (HAllCb (length (frames s0))), None);
                      (p, Some (HAllCb (length (frames s0))), None)] /\
  (forall v, state_of s p = Some (Fulfilled v) ->
     state_of (drain (work s) s) o = Some (Fulfilled (VArray a)) /\
     heap (drain (work s) s) !! a = Some [v; v]) /\
  (forall e es', state_of s p = Some (Rejected e) ->
     state_of (run es' s) o = Some Pending).
Proof.
  intros Hwf Hp s o a.
  pose proof (handle_lt _ _ _ Hp) as Lp.
  destruct (reach_called s0 p p st st Hwf Hp Hp es) as (ph1 & ph2 & arr & Hinv).
  fold s in Hinv. clearbody s.
  split; [|split; [apply called_then_calls|split]].
  - unfold fulfilment_listeners. rewrite !filter_cons_True by (cbn; eauto). done.
  - intros v Hv.
    destruct (drain_fulfils p p _ _ _ _ _ _ _ v v Lp Lp Hinv Hv Hv) as [Hf [Hh|Hh]];
      by split.
  - intros e es' He.
    apply (rejected_keeps_pending p p _ _ _ _ _ _ _ e es' Lp Lp Hinv). by left.
Qed.

Lemma same_handle_twice_witness :
  let s := run [EnvFulfill 0 (VNumber 7)] (called 0 0 two_pending) in
  fulfilment_listeners 0 [(0%nat, Some (HAllCb 0), None); (0%nat, Some (HAllCb 0), None)]
    = 2%nat /\
  then_calls (called 0 0 two_pending) =
    [(0%nat, Some (HAllCb 0), None); (0%nat, Some (HAllCb 0), None)] /\
  (forall v, state_of s 0 = Some (Fulfilled v) ->
     state_of (drain (work s) s) 2 = Some (Fulfilled (VArray 0)) /\
     heap (drain (work s) s) !! 0%nat = Some [v; v]) /\
  (forall e es', state_of s 0 = Some (Rejected e) ->
     state_of (run es' s) 2 = Some Pending).
Proof.
  exact (same_handle_twice two_pending 0 Pending [EnvFulfill 0 (VNumber 7)]
           eq_refl eq_refl).
Defined.
